(** * Amber Radiance 1 camera client: packet codec, stream reassembly,
      request correlation and option tables of [src/index.js].

    The JavaScript module is embedded shallowly:
    - a Node [Buffer] is a [list Z] whose elements are bytes (0..255);
      indexing [buff[i]] is the partial lookup [buff !! i], where [None]
      stands for JavaScript's [undefined];
    - an indexed store [buff[i] = v] coerces [v] to an unsigned byte
      ([toUint8]) and is ignored out of range, like stdpp's list insert;
    - a thrown exception is the [Throw] branch of [result];
    - the [Camera] object is a record that is passed explicitly;
    - an [async] method is a [proc]: the sequence of [send]s it performs,
      each one resumed with the response it awaited. *)

From Stdlib Require Import ZArith String Ascii Lia.
From stdpp Require Import base numbers option list gmap strings.

Local Open Scope Z_scope.

(** ** Exceptions and results *)

Inductive exn : Type :=
| RangeError
    (* Buffer.writeUInt16LE / readUInt16LE: value or offset out of range *)
| TypeError
    (* a property read on [undefined] *)
| IncorrectChecksum (expected got : option Z)
    (* parsePacket: `Incorrect checksum: Expected .., got ..` *)
| InvalidOption (message : string).
    (* validate: `Option ".." is invalid. Available options are [..]` *)

Inductive result (A : Type) : Type :=
| Ok (a : A)
| Throw (e : exn).
Arguments Ok {A} a.
Arguments Throw {A} e.

Definition rbind {A B : Type} (r : result A) (k : A → result B) : result B :=
  match r with
  | Ok a => k a
  | Throw e => Throw e
  end.

Notation "'try' x ← r ; k" := (rbind r (λ x, k))
  (at level 10, x name, r at level 100, k at level 200).

(** ** Buffers *)

Module Buffer.

(** [Buffer.alloc(n)]: [n] zero bytes. *)
Definition alloc (n : nat) : list Z := replicate n 0.

(** Conversion of an integer stored into a [Uint8Array] slot. *)
Definition toUint8 (v : Z) : Z := v `mod` 256.

(** [buf[i] = v]. *)
Definition set (buf : list Z) (i : nat) (v : Z) : list Z :=
  <[i := toUint8 v]> buf.

(** [buf.writeUInt16LE(value, offset)]: the value must be an unsigned
    16-bit integer and both bytes must lie inside the buffer. *)
Definition writeUInt16LE (buf : list Z) (value : Z) (offset : nat)
  : result (list Z) :=
  if bool_decide (0 ≤ value ≤ 65535) && bool_decide (S offset < length buf)%nat
  then Ok (set (set buf offset value) (S offset) (value ≫ 8))
  else Throw RangeError.

(** [buf.readUInt16LE(offset)]. *)
Definition readUInt16LE (buf : list Z) (offset : nat) : result Z :=
  match buf !! offset, buf !! S offset with
  | Some first, Some last => Ok (first + last * 2 ^ 8)
  | _, _ => Throw RangeError
  end.

(** [buf.subarray(start, end)]. *)
Definition subarray (buf : list Z) (start stop : nat) : list Z :=
  take (stop - start) (drop start buf).

(** [buf.readUInt32LE(offset)]: the first and the last byte are checked. *)
Definition readUInt32LE (buf : list Z) (offset : nat) : result Z :=
match buf !! offset, buf !! (offset + 3)%nat with
| Some first, Some last =>
    Ok (first + default 0 (buf !! (offset + 1)%nat) * 2 ^ 8
        + default 0 (buf !! (offset + 2)%nat) * 2 ^ 16 + last * 2 ^ 24)
| _, _ => Throw RangeError
end.

End Buffer.

(** A well-formed buffer holds bytes. *)
Definition is_byte (b : Z) : Prop := 0 ≤ b < 256.
Definition bytes (buf : list Z) : Prop := Forall is_byte buf.

(** ** Packet codec *)

(** [STD_HEADER]: eight zero bytes, then the constant fields. *)
Definition STD_HEADER : list Z :=
  let h := Buffer.alloc 8 in
  let h := Buffer.set h 0 3 in
  let h := Buffer.set h 1 0 in
  let h := Buffer.set h 2 1 in
  let h := Buffer.set h 6 255 in
  Buffer.set h 7 255.

(** [STD_FOOTER]: four zero bytes, the second one set to 2. *)
Definition STD_FOOTER : list Z :=
  Buffer.set (Buffer.alloc 4) 1 2.

(** The loop [for (i ..) dataBlock.writeUInt16LE(data[i], 2 + i * 2)],
    entered at index [i] with [data] the words still to be written. *)
Fixpoint write_words (dataBlock : list Z) (data : list Z) (i : nat)
  : result (list Z) :=
  match data with
  | [] => Ok dataBlock
  | w :: rest =>
      try dataBlock ← Buffer.writeUInt16LE dataBlock w (2 + i * 2);
      write_words dataBlock rest (S i)
  end.

(** The loop [for (i ..) footer[0] += msg[i]]. *)
Definition add_checksum (footer msg : list Z) : list Z :=
  foldl (λ footer b, Buffer.set footer 0 (default 0 (footer !! 0%nat) + b))
        footer msg.

Definition createPacket (messageNumber command subCommand : Z) (data : list Z)
  : result (list Z) :=
  let header := STD_HEADER in
  let header := Buffer.set header 3 command in
  let header := Buffer.set header 4 subCommand in
  let header := Buffer.set header 5 messageNumber in
  let dataSize := (2 + length data * 2)%nat in
  let dataBlock := Buffer.alloc dataSize in
  try dataBlock ←
    (match data with
     | [] => Ok dataBlock
     | _ =>
         try dataBlock ←
           Buffer.writeUInt16LE dataBlock (Z.of_nat (length data * 2)) 0;
         write_words dataBlock data 0
     end);
  let footer := STD_FOOTER in
  let msg := header ++ dataBlock in
  let footer := add_checksum footer msg in
  Ok (msg ++ footer).

(** The decoded packet [{ messageID, response }]; [None] is [undefined]. *)
Record Parsed : Type := MkParsed {
  messageID : option Z;
  response : option (list Z);
}.

(** The value of [expected] after [n] rounds of [expected += buff[i]];
    [None] is NaN (a byte read past the end of the buffer). *)
Fixpoint checksum_loop (buff : list Z) (n : nat) : option Z :=
  match n with
  | O => Some 0
  | S i =>
      match checksum_loop buff i, buff !! i with
      | Some expected, Some b => Some (expected + b)
      | _, _ => None
      end
  end.

(** [got !== expected % 256] on possibly undefined / NaN operands. *)
Definition strict_ne_mod (got expected : option Z) : bool :=
  match got, expected with
  | Some g, Some e => negb (g =? Z.rem e 256)
  | _, _ => true
  end.

Definition parsePacket (buff : list Z) (dataSize : nat) : result Parsed :=
  let expected := checksum_loop buff (10 + dataSize) in
  if strict_ne_mod (buff !! (10 + dataSize)%nat) expected
  then Throw (IncorrectChecksum ((λ e, Z.rem e 256) <$> expected)
                                (buff !! (10 + dataSize)%nat))
  else
    let messageID := buff !! 5%nat in
    let response :=
      if decide (dataSize = 0%nat) then None
      else Some (Buffer.subarray buff 10 (10 + dataSize)) in
    Ok (MkParsed messageID response).

(** ** Function table and option maps *)

(** [FUNCTIONS]: (function, subfunction) pairs. *)
Module FUNCTIONS.
Definition AGC_OFF : Z * Z := (1, 0).
Definition AGC_ON : Z * Z := (1, 1).
Definition AGC_GET : Z * Z := (1, 2).
Definition AGC_SET : Z * Z := (1, 3).
Definition LUT_SET : Z * Z := (5, 1).
Definition LUT_GET : Z * Z := (5, 2).
Definition ITT_SET : Z * Z := (5, 4).
Definition ITT_GET : Z * Z := (5, 5).
Definition NUC_SET : Z * Z := (7, 5).
Definition NUC_GET : Z * Z := (7, 6).
Definition COOLER_OFF : Z * Z := (3, 2).
Definition COOLER_ON : Z * Z := (3, 3).
Definition STATUS_GET : Z * Z := (3, 5).
Definition FREEZE_FRAME : Z * Z := (4, 1).
Definition BRIGHTNESS_UP : Z * Z := (4, 4).
Definition BRIGHTNESS_DOWN : Z * Z := (4, 5).
Definition CONTRAST_UP : Z * Z := (4, 6).
Definition CONTRAST_DOWN : Z * Z := (4, 7).
Definition INVERT_IMAGE : Z * Z := (5, 0).
Definition COLOR_BAR_OFF : Z * Z := (5, 12).
Definition COLOR_BAR_ON : Z * Z := (5, 13).
Definition OSD_OFF : Z * Z := (6, 0).
Definition OSD_ON : Z * Z := (6, 1).
End FUNCTIONS.

(** An object literal with string keys, in insertion order (the order of
    [Object.keys] and of [for .. in]). *)
Definition object : Type := list (string * Z).

Definition AGC_MODES : object :=
  [("off", -1); ("full", 0); ("midsize", 1); ("center", 2); ("horizon", 3)]%string.

Definition ITT_MODES : object :=
  [("linear", 1); ("inverse", 2); ("s-curve", 3); ("two-cycle", 4)]%string.

Definition NUC_MODES : object :=
  [("cold", 1); ("mid", 2); ("warm", 3); ("hot", 4)]%string.

Definition LUT_MODES : object :=
  [("black-and-white", 1); ("color", 2); ("sepia", 3)]%string.

(** [Object.keys(obj)]. *)
Definition keys (obj : object) : list string := obj.*1.

(** [obj[key]]; [None] is [undefined]. *)
Fixpoint get (obj : object) (key : string) : option Z :=
  match obj with
  | [] => None
  | (k, v) :: rest => if decide (k = key) then Some v else get rest key
  end.

(** [invertMap]: the inverted object is keyed by the numeric values. *)
Definition invertMap (obj : object) : gmap Z string :=
  foldl (λ inverted key,
           match get obj key with
           | Some v => <[v := key]> inverted
           | None => inverted
           end)
        ∅ (keys obj).

Definition ITT_MAP : gmap Z string := invertMap ITT_MODES.
Definition NUC_MAP : gmap Z string := invertMap NUC_MODES.
Definition LUT_MAP : gmap Z string := invertMap LUT_MODES.

(** The double quote character, and a name between double quotes. *)
Definition dquote : string := String (ascii_of_nat 34) EmptyString.
Definition quoted (v : string) : string := (dquote ++ v ++ dquote)%string.

(** The message of the error thrown by [validate]. *)
Definition invalid_message (option_ : string) (options : object) : string :=
  ("Option " ++ quoted option_ ++ " is invalid. Available options are ["
     ++ String.concat ", " (quoted <$> keys options) ++ "]")%string.

Definition validate (option_ : string) (options : object) : result (option Z) :=
  if bool_decide (option_ ∈ keys options)
  then Ok (get options option_)
  else Throw (InvalidOption (invalid_message option_ options)).

(** ** The camera object *)

(** [messageNumber], [receiveBuffer], and the pending [once] listeners:
    the listener of `confirm/<n>` is recorded as [n]. *)
Record Camera : Type := MkCamera {
  messageNumber : Z;
  receiveBuffer : list Z;
  awaiters : list Z;
}.

(** State left by the constructor. *)
Definition new_Camera : Camera := MkCamera 1 (Buffer.alloc 0) [].

(** What one call of [send] does before it suspends: the packet handed to
    [controller.send] and the event number its listener waits for. *)
Record Sent : Type := MkSent {
  sent_packet : list Z;
  sent_key : Z;
  sent_camera : Camera;
}.

Definition send (cam : Camera) (command : Z) (args : list Z) : result Sent :=
  try packet ←
    (match args with
     | [] => createPacket (messageNumber cam) command 0 []
     | subCommand :: data =>
         createPacket (messageNumber cam) command subCommand data
     end);
  let key := messageNumber cam in
  Ok (MkSent packet key
        (MkCamera (messageNumber cam + 1) (receiveBuffer cam)
                  (awaiters cam ++ [key]))).

(** What one call of [receive] does besides updating the camera. *)
Inductive outcome : Type :=
| Idle
| Emit (messageID : option Z) (response : option (list Z))
| Raise (e : exn).

Record Received : Type := MkReceived {
  rcv_camera : Camera;
  rcv_packet : option (list Z);   (* the slice cut off the buffer *)
  rcv_outcome : outcome;
}.

(** [emit] runs and removes the [once] listeners of the event. *)
Definition emit (pending : list Z) (messageID : option Z) : list Z :=
  filter (λ key, Some key ≠ messageID) pending.

Definition receive (cam : Camera) (data : list Z) : Received :=
  let receiveBuffer := receiveBuffer cam ++ data in
  let waiting := MkCamera (messageNumber cam) receiveBuffer (awaiters cam) in
  if decide (14 ≤ length receiveBuffer)%nat then
    match Buffer.readUInt16LE receiveBuffer 8 with
    | Throw e => MkReceived waiting None (Raise e)
    | Ok dataSize =>
        let dataSize := Z.to_nat dataSize in
        let packetSize := (14 + dataSize)%nat in
        if decide (packetSize ≤ length receiveBuffer)%nat then
          let packet := Buffer.subarray receiveBuffer 0 packetSize in
          let receiveBuffer := drop packetSize receiveBuffer in
          match parsePacket packet dataSize with
          | Throw e =>
              MkReceived
                (MkCamera (messageNumber cam) receiveBuffer (awaiters cam))
                (Some packet) (Raise e)
          | Ok parsed =>
              MkReceived
                (MkCamera (messageNumber cam) receiveBuffer
                          (emit (awaiters cam) (messageID parsed)))
                (Some packet) (Emit (messageID parsed) (response parsed))
          end
        else MkReceived waiting None Idle
    end
  else MkReceived waiting None Idle.

(** Successive [data] events. *)
Fixpoint receive_all (cam : Camera) (chunks : list (list Z))
  : Camera * list Received :=
  match chunks with
  | [] => (cam, [])
  | data :: rest =>
      let r := receive cam data in
      let '(cam', rs) := receive_all (rcv_camera r) rest in
      (cam', r :: rs)
  end.

(** ** Commands *)

(** An [async] method as the requests it sends: [Await command args k] is
    [await this.send(command, ...args)] followed by [k] applied to the
    response, [Return] and [Reject] settle the promise. *)
Inductive proc (A : Type) : Type :=
| Return (a : A)
| Reject (e : exn)
| Await (command : Z) (args : list Z) (k : option (list Z) → proc A).
Arguments Return {A} a.
Arguments Reject {A} e.
Arguments Await {A} command args k.

(** [this.send(...fn, ...extra)]. *)
Definition send_fn {A : Type} (fn : Z * Z) (extra : list Z)
  (k : option (list Z) → proc A) : proc A :=
  Await fn.1 (fn.2 :: extra) k.

(** [MAP[response.readUInt16LE(0)]]; the result [None] is [undefined]. *)
Definition mode_of (MAP : gmap Z string) (response : option (list Z))
  : proc (option string) :=
  match response with
  | None => Reject TypeError
  | Some buf =>
      match Buffer.readUInt16LE buf 0 with
      | Ok v => Return (MAP !! v)
      | Throw e => Reject e
      end
  end.

Definition getITT : proc (option string) :=
  send_fn FUNCTIONS.ITT_GET [] (mode_of ITT_MAP).

Definition getLUT : proc (option string) :=
  send_fn FUNCTIONS.LUT_GET [] (mode_of LUT_MAP).

Definition getNUC : proc (option string) :=
  send_fn FUNCTIONS.NUC_GET [] (mode_of NUC_MAP).

(** [this.send(...fn, MODES[mode])]. Every caller has passed [mode] through
    [validate] first, so the key is present; the branch for a missing key is
    never taken. *)
Definition send_mode (fn : Z * Z) (MODES : object) (mode : string)
  : proc (option (list Z)) :=
  match get MODES mode with
  | Some v => send_fn fn [v] Return
  | None => Reject TypeError
  end.

Definition setAGC (mode : string) : proc (option (list Z)) :=
  match validate mode AGC_MODES with
  | Throw e => Reject e
  | Ok _ =>
      if decide (mode = "off"%string)
      then send_fn FUNCTIONS.AGC_OFF [] Return
      else send_fn FUNCTIONS.AGC_ON []
             (λ _, send_mode FUNCTIONS.AGC_SET AGC_MODES mode)
  end.

Definition setITT (mode : string) : proc (option (list Z)) :=
  match validate mode ITT_MODES with
  | Throw e => Reject e
  | Ok _ => send_mode FUNCTIONS.ITT_SET ITT_MODES mode
  end.

Definition setLUT (mode : string) : proc (option (list Z)) :=
  match validate mode LUT_MODES with
  | Throw e => Reject e
  | Ok _ => send_mode FUNCTIONS.LUT_SET LUT_MODES mode
  end.

Definition setNUC (mode : string) : proc (option (list Z)) :=
  match validate mode NUC_MODES with
  | Throw e => Reject e
  | Ok _ => send_mode FUNCTIONS.NUC_SET NUC_MODES mode
  end.

(** The requests a command has sent when it first suspends or settles. *)
Definition sends_nothing {A : Type} (p : proc A) : Prop :=
  match p with
  | Await _ _ _ => False
  | _ => True
  end.

(** [getAGC]: [response.readUInt16LE(0) ? true : false]. *)
Definition getAGC : proc bool :=
  send_fn FUNCTIONS.AGC_GET []
    (λ response,
       match response with
       | None => Reject TypeError
       | Some buf =>
           match Buffer.readUInt16LE buf 0 with
           | Ok v => Return (negb (v =? 0))
           | Throw e => Reject e
           end
       end).

(** The object returned by [getStatus]. *)
Record Status : Type := MkStatus {
  numCoolerCycles : Z;
  numPowerCycles : Z;
  coolerTime : Z;
}.

Definition getStatus : proc Status :=
  send_fn FUNCTIONS.STATUS_GET []
    (λ response,
       match response with
       | None => Reject TypeError
       | Some buf =>
           match Buffer.readUInt16LE buf 0 with
           | Throw e => Reject e
           | Ok coolerCycles =>
               match Buffer.readUInt16LE buf 2 with
               | Throw e => Reject e
               | Ok powerCycles =>
                   match Buffer.readUInt32LE buf 4 with
                   | Throw e => Reject e
                   | Ok time => Return (MkStatus coolerCycles powerCycles time)
                   end
               end
           end
       end).

Definition invertImage : proc (option (list Z)) :=
  send_fn FUNCTIONS.INVERT_IMAGE [] Return.

Definition setBrightness (delta : Z) : proc (option (list Z)) :=
  send_fn (if decide (delta > 0) then FUNCTIONS.BRIGHTNESS_UP
           else FUNCTIONS.BRIGHTNESS_DOWN) [] Return.

Definition setCooler (enabled : bool) : proc (option (list Z)) :=
  send_fn (if enabled then FUNCTIONS.COOLER_ON else FUNCTIONS.COOLER_OFF)
          [] Return.

Definition setContrast (delta : Z) : proc (option (list Z)) :=
  send_fn (if decide (delta > 0) then FUNCTIONS.CONTRAST_UP
           else FUNCTIONS.CONTRAST_DOWN) [] Return.

Definition toggleColorBar (enabled : bool) : proc (option (list Z)) :=
  send_fn (if enabled then FUNCTIONS.COLOR_BAR_ON else FUNCTIONS.COLOR_BAR_OFF)
          [] Return.

Definition toggleFreezeFrame : proc (option (list Z)) :=
  send_fn FUNCTIONS.FREEZE_FRAME [] Return.

Definition toggleOSD (enabled : bool) : proc (option (list Z)) :=
  send_fn (if enabled then FUNCTIONS.OSD_ON else FUNCTIONS.OSD_OFF) [] Return.

(** The mock camera of [test/device.mocks.js]: the chunks [respond] writes
    to the client, one [client.write] each. *)
Definition respond (functionCode subFunctionCode messageID : Z)
  (response : list Z) : list (list Z) :=
  let dataBytes := Z.of_nat (length response) in
  let checkSum :=
    Z.rem (3 + 1 + functionCode + subFunctionCode + messageID + dataBytes
           + foldl Z.add 0 response) 256 in
  [ Buffer.toUint8 <$> [3];
    Buffer.toUint8 <$> [0; 1];
    Buffer.toUint8 <$> [functionCode; subFunctionCode];
    Buffer.toUint8 <$> [messageID; 0; 0];
    Buffer.toUint8 <$> [dataBytes; 0];
    response;
    Buffer.toUint8 <$> [checkSum; 0];
    Buffer.toUint8 <$> [0; 0] ].

(** ** Specification vocabulary *)

Definition sumZ (l : list Z) : Z := foldr Z.add 0 l.

Definition is_word (w : Z) : Prop := 0 ≤ w ≤ 65535.

(** A 16-bit word as two bytes, low byte first. *)
Definition le16 (w : Z) : list Z := [w `mod` 256; w `div` 256].

Definition words_le (data : list Z) : list Z := data ≫= le16.

(** The header written by [createPacket]. *)
Definition header_of (messageNumber command subCommand : Z) : list Z :=
  [3; 0; 1; command `mod` 256; subCommand `mod` 256; messageNumber `mod` 256;
   255; 255].

(** The byte at offset [10 + n] is the sum of the bytes before it, mod 256. *)
Definition checksum_ok (buff : list Z) (n : nat) : Prop :=
  buff !! (10 + n)%nat = Some (sumZ (take (10 + n) buff) `mod` 256).

(** A valid packet of declared data size [n]. *)
Definition valid_packet (packet : list Z) (n : nat) : Prop :=
  bytes packet ∧ length packet = (14 + n)%nat ∧ checksum_ok packet n.

(** A valid packet whose length field (bytes 8 and 9) holds its data size. *)
Definition framed_packet (packet : list Z) (n : nat) : Prop :=
  valid_packet packet n ∧ Buffer.readUInt16LE packet 8 = Ok (Z.of_nat n).

(** The bytes of a decoded payload; none for [undefined]. *)
Definition payload_bytes (response : option (list Z)) : list Z :=
  default [] response.

(** The round trip at one input: the packet is built, and decoding it with
    declared data size [2 * length data] gives back the sequence number and
    the little-endian bytes of the argument words ([undefined] for none). *)
Definition roundtrip (messageNumber command subCommand : Z) (data : list Z)
  : Prop :=
  ∃ packet parsed,
    createPacket messageNumber command subCommand data = Ok packet
    ∧ parsePacket packet (2 * length data) = Ok parsed
    ∧ messageID parsed = Some messageNumber
    ∧ payload_bytes (response parsed) = words_le data.

(** The event emitted for a valid packet of declared data size [n]. *)
Definition decoded (packet : list Z) (n : nat) : outcome :=
  Emit (packet !! 5%nat)
       (if decide (n = 0%nat) then None else Some (take n (drop 10 packet))).

(** The packet slices cut off by a run of [receive]s, in order. *)
Definition slices (rs : list Received) : list (list Z) := omap rcv_packet rs.

(** What a run of [receive]s emitted or raised, in order. *)
Definition events (rs : list Received) : list outcome :=
  omap (λ r, match rcv_outcome r with Idle => None | o => Some o end) rs.

(** [count] sends of the same request in a row, no response in between. *)
Fixpoint send_many (cam : Camera) (count : nat) (command : Z) (args : list Z)
  : result Camera :=
  match count with
  | O => Ok cam
  | S count =>
      try s ← send cam command args;
      send_many (sent_camera s) count command args
  end.

(** The mode setters and getters with their option maps. *)
Definition mode_setters : list ((string → proc (option (list Z))) * object) :=
  [(setAGC, AGC_MODES); (setITT, ITT_MODES); (setLUT, LUT_MODES);
   (setNUC, NUC_MODES)].

Definition mode_getters : list (proc (option string) * object) :=
  [(getITT, ITT_MODES); (getLUT, LUT_MODES); (getNUC, NUC_MODES)].

(** The message names the option between double quotes. *)
Definition mentions (message name : string) : Prop :=
  ∃ pre post, message = (pre ++ quoted name ++ post)%string.

(** A command resumed with the response to its first request. *)
Definition resume {A : Type} (p : proc A) (response : option (list Z))
  : proc A :=
  match p with
  | Await _ _ k => k response
  | settled => settled
  end.

(** A 32-bit word as four bytes, low byte first. *)
Definition le32 (w : Z) : list Z :=
  [w `mod` 256; (w `div` 256) `mod` 256; (w `div` 65536) `mod` 256;
   w `div` 16777216].

(** A packet whose own length gives its declared data size. *)
Definition framed (packet : list Z) : Prop :=
  framed_packet packet (length packet - 14).

(** The event emitted for a framed packet. *)
Definition decoded_event (packet : list Z) : outcome :=
  decoded packet (length packet - 14).

(** Every request a command can issue satisfies [P], whatever the
    responses are. *)
Fixpoint all_requests {A : Type} (P : Z → list Z → Prop) (p : proc A) : Prop :=
  match p with
  | Await command args k => P command args ∧ ∀ response, all_requests P (k response)
  | _ => True
  end.

(** The getters' inverted maps with the option maps they come from. *)
Definition inverted_maps : list (gmap Z string * object) :=
  [(ITT_MAP, ITT_MODES); (NUC_MAP, NUC_MODES); (LUT_MAP, LUT_MODES)].

(** The setters that send their mode as a word, with the matching getter. *)
Definition setter_getter_pairs
  : list ((string → proc (option (list Z))) * proc (option string) * object) :=
  [(setITT, getITT, ITT_MODES); (setLUT, getLUT, LUT_MODES);
   (setNUC, getNUC, NUC_MODES)].

(** A request that [send] accepts on every camera. *)
Definition sendable (command : Z) (args : list Z) : Prop :=
  ∀ cam, ∃ s, send cam command args = Ok s.

(** * Properties *)

(** ** Sums of bytes *)

Section codec_lemmas.

Lemma sumZ_app l1 l2 : sumZ (l1 ++ l2) = sumZ l1 + sumZ l2.
Proof. induction l1 as [|x l1 IH]; simpl; [done | rewrite IH; lia]. Qed.

Lemma sumZ_nonneg l : bytes l → 0 ≤ sumZ l.
Proof.
  induction 1 as [|x l Hx _ IH]; simpl; [done | unfold is_byte in Hx; lia].
Qed.

Lemma sumZ_insert l (i : nat) old b :
  l !! i = Some old → sumZ (<[i := b]> l) = sumZ l - old + b.
Proof.
  revert i. induction l as [|x l IH]; intros [|i] H; simplify_eq/=; [lia |].
  rewrite (IH _ H). lia.
Qed.

Lemma bytes_take n l : bytes l → bytes (take n l).
Proof. apply Forall_take. Qed.

(** The checksum loop of [parsePacket] sums the first [n] bytes, and is
    NaN as soon as it reads past the end. *)
Lemma checksum_loop_take buff n :
  (n ≤ length buff)%nat → checksum_loop buff n = Some (sumZ (take n buff)).
Proof.
  induction n as [|n IH]; intros Hn; simpl; [done |].
  rewrite IH by lia.
  destruct (lookup_lt_is_Some_2 buff n) as [b Hb]; [lia |].
  rewrite Hb. erewrite take_S_r by done.
  rewrite sumZ_app. simpl. f_equal. lia.
Qed.

Lemma checksum_loop_past buff n :
  (length buff < n)%nat → checksum_loop buff n = None.
Proof.
  induction n as [|n IH]; intros Hn; [lia |]. simpl.
  destruct (decide (length buff < n)%nat) as [Hlt|Hge].
  - by rewrite IH.
  - rewrite (lookup_ge_None_2 buff n) by lia. by destruct (checksum_loop _ _).
Qed.

(** The checksum loop of [createPacket] leaves the byte sum in [footer[0]]. *)
Lemma add_checksum_sum c f msg :
  is_byte c →
  add_checksum (c :: f) msg = ((c + sumZ msg) `mod` 256) :: f.
Proof.
  unfold add_checksum, is_byte. revert c.
  induction msg as [|b msg IH]; intros c Hc; simpl.
  - rewrite Z.add_0_r, Z.mod_small by lia. done.
  - unfold Buffer.set at 2. simpl. rewrite IH.
    + unfold Buffer.toUint8. rewrite Zplus_mod_idemp_l. do 2 f_equal. lia.
    + unfold Buffer.toUint8. apply Z.mod_pos_bound. lia.
Qed.

End codec_lemmas.

Section codec_lemmas2.

Lemma le16_bytes w : is_word w → bytes (le16 w).
Proof.
  unfold is_word, is_byte. intros Hw.
  repeat constructor; try apply Z.mod_pos_bound; try lia.
  - apply Z.div_pos; lia.
  - apply Z.div_lt_upper_bound; lia.
Qed.

Lemma words_le_bytes data : Forall is_word data → bytes (words_le data).
Proof.
  induction 1 as [|w data Hw _ IH]; [constructor |].
  apply Forall_app. split; [by apply le16_bytes | done].
Qed.

Lemma length_words_le data : length (words_le data) = (length data * 2)%nat.
Proof. induction data as [|w data IH]; simpl; [done | rewrite <- IH; done]. Qed.

(** One in-range [writeUInt16LE] at the end of the part already written. *)
Lemma writeUInt16LE_app pre w rest :
  is_word w →
  Buffer.writeUInt16LE (pre ++ 0 :: 0 :: rest) w (length pre)
  = Ok ((pre ++ le16 w) ++ rest).
Proof.
  unfold is_word. intros Hw. unfold Buffer.writeUInt16LE.
  rewrite bool_decide_eq_true_2 by done.
  rewrite bool_decide_eq_true_2 by (rewrite length_app; simpl; lia).
  simpl. unfold Buffer.set, Buffer.toUint8.
  rewrite insert_app_r_alt by lia. rewrite Nat.sub_diag. simpl.
  rewrite insert_app_r_alt by lia.
  replace (S (length pre) - length pre)%nat with 1%nat by lia. simpl.
  rewrite <- app_assoc. simpl. do 3 f_equal.
  rewrite Z.shiftr_div_pow2 by lia. change (2 ^ 8) with 256.
  f_equal. apply Z.mod_small.
  split; [apply Z.div_pos; lia | apply Z.div_lt_upper_bound; lia].
Qed.

Lemma write_words_app data : ∀ pre (i : nat),
  Forall is_word data →
  length pre = (2 + i * 2)%nat →
  write_words (pre ++ replicate (length data * 2) 0) data i
  = Ok (pre ++ words_le data).
Proof.
  induction data as [|w data IH]; intros pre i Hdata Hpre; simpl.
  - done.
  - inversion_clear Hdata as [|? ? Hw Hrest].
    replace (S (S (i * 2))) with (length pre) by lia.
    rewrite writeUInt16LE_app by done. simpl.
    rewrite (IH (pre ++ le16 w) (S i)); [by rewrite <- app_assoc | done |].
    rewrite length_app. simpl. lia.
Qed.

(** Layout of the packet: header, length prefix, words, checksum, footer. *)
Lemma createPacket_layout messageNumber command subCommand data :
  Forall is_word data →
  Z.of_nat (length data) ≤ 32767 →
  let msg := header_of messageNumber command subCommand
               ++ le16 (Z.of_nat (length data * 2)) ++ words_le data in
  createPacket messageNumber command subCommand data
  = Ok (msg ++ [sumZ msg `mod` 256; 2; 0; 0]).
Proof.
  intros Hdata Hlen msg. unfold createPacket.
  assert (Hblock :
    match data with
    | [] => Ok (Buffer.alloc (2 + length data * 2))
    | _ => try dataBlock ← Buffer.writeUInt16LE
             (Buffer.alloc (2 + length data * 2))
             (Z.of_nat (length data * 2)) 0;
           write_words dataBlock data 0
    end = Ok (le16 (Z.of_nat (length data * 2)) ++ words_le data)).
  { destruct data as [|w data]; [done |].
    cbv beta iota. remember (w :: data) as ws eqn:Hws.
    assert (Hn : is_word (Z.of_nat (length ws * 2))) by (unfold is_word; lia).
    pose proof (writeUInt16LE_app [] _ (replicate (length ws * 2) 0) Hn) as Hw.
    simpl in Hw. unfold Buffer.alloc. simpl replicate. rewrite Hw.
    simpl rbind.
    by apply (write_words_app ws (le16 _) 0). }
  rewrite Hblock. cbv beta iota zeta delta [rbind].
  change STD_FOOTER with (0 :: [2; 0; 0]).
  rewrite add_checksum_sum by (unfold is_byte; lia).
  done.
Qed.

End codec_lemmas2.

(** ** Valid packets *)

Section decode_lemmas.

Lemma parsePacket_bytes buff n ck :
  bytes buff →
  buff !! (10 + n)%nat = Some ck →
  parsePacket buff n =
    if decide (ck = sumZ (take (10 + n) buff) `mod` 256)
    then Ok (MkParsed (buff !! 5%nat)
               (if decide (n = 0%nat) then None
                else Some (take n (drop 10 buff))))
    else Throw (IncorrectChecksum
                  (Some (sumZ (take (10 + n) buff) `mod` 256)) (Some ck)).
Proof.
  intros Hb Hck. unfold parsePacket.
  assert (Hlen : (10 + n < length buff)%nat) by by eapply lookup_lt_Some.
  rewrite checksum_loop_take by lia. rewrite Hck.
  assert (Hrem : Z.rem (sumZ (take (10 + n) buff)) 256
                 = sumZ (take (10 + n) buff) `mod` 256).
  { apply Z.rem_mod_nonneg; [| lia]. by apply sumZ_nonneg, bytes_take. }
  cbn [strict_ne_mod fmap option_fmap option_map]. rewrite Hrem.
  destruct (decide (ck = sumZ (take (10 + n) buff) `mod` 256)) as [->|Hne].
  - rewrite Z.eqb_refl. cbn [negb]. unfold Buffer.subarray.
    by replace (10 + n - 10)%nat with n by lia.
  - by rewrite (proj2 (Z.eqb_neq _ _) Hne).
Qed.

Lemma bytes_insert buff (i : nat) b : bytes buff → is_byte b → bytes (<[i := b]> buff).
Proof. intros. by apply Forall_insert. Qed.

End decode_lemmas.

(** C9. [parsePacket] checks the checksum and nothing else: on a byte
    buffer of at least [11 + n] bytes it succeeds exactly when byte
    [10 + n] is the mod-256 sum of bytes [0 .. 10 + n - 1]; the result is
    made of byte 5 and of bytes [10 .. 10 + n - 1] only, so two buffers that
    agree there decode alike whatever their other bytes are. *)
Theorem parsePacket_validates_only_checksum (buff : list Z) (n : nat) :
  bytes buff →
  (11 + n ≤ length buff)%nat →
  ((∃ parsed, parsePacket buff n = Ok parsed) ↔ checksum_ok buff n)
  ∧ (¬ checksum_ok buff n →
     ∃ expected got, parsePacket buff n = Throw (IncorrectChecksum expected got))
  ∧ (∀ parsed, parsePacket buff n = Ok parsed →
       parsed = MkParsed (buff !! 5%nat)
                  (if decide (n = 0%nat) then None
                   else Some (take n (drop 10 buff))))
  ∧ (∀ buff' parsed parsed',
       bytes buff' → (11 + n ≤ length buff')%nat →
       buff' !! 5%nat = buff !! 5%nat →
       take n (drop 10 buff') = take n (drop 10 buff) →
       parsePacket buff n = Ok parsed →
       parsePacket buff' n = Ok parsed' →
       parsed = parsed').
Proof.
  intros Hb Hlen.
  destruct (lookup_lt_is_Some_2 buff (10 + n)) as [ck Hck]; [lia |].
  pose proof (parsePacket_bytes buff n ck Hb Hck) as Hparse.
  assert (Hresult : ∀ parsed, parsePacket buff n = Ok parsed →
            parsed = MkParsed (buff !! 5%nat)
                       (if decide (n = 0%nat) then None
                        else Some (take n (drop 10 buff)))).
  { intros parsed. rewrite Hparse.
    destruct (decide (ck = _)); [congruence | discriminate]. }
  repeat split.
  - intros [parsed Hp]. rewrite Hparse in Hp. unfold checksum_ok.
    destruct (decide (ck = _)); [congruence | discriminate].
  - unfold checksum_ok. intros Hok. rewrite Hparse.
    destruct (decide (ck = _)); [eauto | congruence].
  - unfold checksum_ok. intros Hno. rewrite Hparse.
    destruct (decide (ck = _)); [congruence | eauto].
  - done.
  - intros buff' parsed parsed' Hb' Hlen' H5 Hpay Hp Hp'.
    destruct (lookup_lt_is_Some_2 buff' (10 + n)) as [ck' Hck']; [lia |].
    rewrite (parsePacket_bytes buff' n ck' Hb' Hck') in Hp'.
    apply Hresult in Hp. destruct (decide (ck' = _)); [| discriminate].
    simplify_eq. by rewrite H5, Hpay.
Qed.

(** A buffer with foreign header constants and footer bytes, but a correct
    checksum, decodes. *)
Lemma parsePacket_validates_only_checksum_witness :
  let buff := [9; 9; 9; 7; 5; 1; 0; 0; 2; 0; 4; 0; 46; 7; 7; 7] in
  bytes buff ∧ (11 + 2 ≤ length buff)%nat
  ∧ parsePacket buff 2 = Ok (MkParsed (Some 1) (Some [4; 0])).
Proof.
  intros buff.
  assert (Hb : bytes buff) by (repeat constructor; done).
  assert (Hlen : (11 + 2 ≤ length buff)%nat) by (simpl; lia).
  split; [done |]. split; [done |].
  destruct (parsePacket_validates_only_checksum buff 2 Hb Hlen)
    as (Hiff & _ & Hres & _).
  destruct (proj2 Hiff) as [parsed Hp]; [reflexivity |].
  rewrite Hp. f_equal. by apply Hres.
Defined.

(** C4. In a valid packet of declared data size [n], replacing any one byte
    before the checksum byte by a different byte makes [parsePacket], called
    with the same [n], throw its checksum error. *)
Theorem single_byte_corruption_detected (packet : list Z) (n i : nat) (b : Z) :
  valid_packet packet n →
  (i < 10 + n)%nat →
  is_byte b →
  packet !! i ≠ Some b →
  ∃ expected got,
    parsePacket (<[i := b]> packet) n = Throw (IncorrectChecksum expected got)
    ∧ got = packet !! (10 + n)%nat ∧ expected ≠ got.
Proof.
  intros (Hb & Hlen & Hck) Hi Hbyte Hdiff.
  destruct (lookup_lt_is_Some_2 packet i) as [old Hold]; [lia |].
  assert (Hold_byte : is_byte old).
  { eapply Forall_lookup_1; [exact Hb | exact Hold]. }
  assert (Hne : old ≠ b) by congruence.
  unfold checksum_ok in Hck.
  rewrite (parsePacket_bytes (<[i := b]> packet) n _
             (bytes_insert _ _ _ Hb Hbyte)
             (eq_trans (list_lookup_insert_ne packet i (10 + n) b ltac:(lia)) Hck)).
  rewrite take_insert_lt by lia.
  rewrite (sumZ_insert _ _ old) by (rewrite lookup_take_lt by lia; done).
  set (s := sumZ (take (10 + n) packet)) in *.
  assert (Hmod : s `mod` 256 ≠ (s - old + b) `mod` 256).
  { unfold is_byte in *. intros Heq.
    pose proof (Z.div_mod s 256 ltac:(lia)) as H1.
    pose proof (Z.div_mod (s - old + b) 256 ltac:(lia)) as H2.
    rewrite <- Heq in H2. lia. }
  destruct (decide (_ = _)) as [Heq|_]; [congruence |].
  eexists _, _. split; [done |]. split; [done |]. congruence.
Qed.

Lemma single_byte_corruption_detected_witness :
  let packet := [3; 0; 1; 7; 5; 1; 255; 255; 2; 0; 4; 0; 21; 2; 0; 0] in
  valid_packet packet 2 ∧
  ∃ expected got,
    parsePacket (<[3%nat := 8]> packet) 2 = Throw (IncorrectChecksum expected got)
    ∧ got = packet !! (10 + 2)%nat ∧ expected ≠ got.
Proof.
  intros packet.
  assert (Hv : valid_packet packet 2).
  { split; [repeat constructor; done |]. split; reflexivity. }
  split; [done |].
  apply (single_byte_corruption_detected packet 2 3 8 Hv).
  - lia.
  - done.
  - discriminate.
Defined.

Section roundtrip_lemmas.

Lemma header_of_bytes messageNumber command subCommand :
  bytes (header_of messageNumber command subCommand).
Proof.
  unfold header_of, bytes, is_byte.
  repeat constructor; try apply Z.mod_pos_bound; lia.
Qed.

(** A packet built by [createPacket] is a valid, framed packet. *)
Lemma createPacket_framed messageNumber command subCommand data :
  Forall is_word data →
  Z.of_nat (length data) ≤ 32767 →
  ∃ packet,
    createPacket messageNumber command subCommand data = Ok packet
    ∧ framed_packet packet (length data * 2)
    ∧ packet !! 5%nat = Some (messageNumber `mod` 256)
    ∧ take (length data * 2) (drop 10 packet) = words_le data.
Proof.
  intros Hdata Hlen.
  pose proof (createPacket_layout messageNumber command subCommand data
                Hdata Hlen) as Hcp. cbv zeta in Hcp.
  eexists. split; [exact Hcp |].
  set (n := (length data * 2)%nat) in *.
  set (hd := header_of messageNumber command subCommand) in *.
  assert (Hn : is_word (Z.of_nat n)) by (unfold is_word; lia).
  assert (Hmsg : bytes (hd ++ le16 (Z.of_nat n) ++ words_le data)).
  { apply Forall_app. split; [apply header_of_bytes |].
    apply Forall_app. split; [by apply le16_bytes | by apply words_le_bytes]. }
  assert (Hmlen : length (hd ++ le16 (Z.of_nat n) ++ words_le data)
                  = (10 + n)%nat).
  { rewrite !length_app, length_words_le. simpl. lia. }
  unfold framed_packet, valid_packet. split_and!.
  - apply Forall_app. split; [done |].
    unfold is_byte. repeat constructor; try apply Z.mod_pos_bound; lia.
  - rewrite length_app, Hmlen. simpl. lia.
  - unfold checksum_ok. rewrite <- Hmlen.
    rewrite take_app_length. by rewrite list_lookup_middle.
  - unfold Buffer.readUInt16LE. subst hd.
    cbn [header_of app lookup list_lookup le16].
    f_equal. unfold is_word in Hn.
    pose proof (Z.div_mod (Z.of_nat n) 256 ltac:(lia)). lia.
  - reflexivity.
  - subst hd n. cbn [header_of app drop le16]. rewrite drop_0.
    rewrite <- (length_words_le data) at 1. by rewrite take_app_length.
Qed.

End roundtrip_lemmas.

(** C1 (amended). For every command and subcommand, every sequence number in
    0..255 and every list of at most 32767 argument words in 0..65535,
    [parsePacket] applied to the packet of [createPacket], with declared data
    size twice the number of words, succeeds with the original sequence
    number and the words as little-endian byte pairs; the payload is
    [undefined] exactly when there is no argument. *)
Theorem createPacket_parsePacket_roundtrip
  (messageNumber command subCommand : Z) (data : list Z) :
  is_byte messageNumber →
  Forall is_word data →
  Z.of_nat (length data) ≤ 32767 →
  roundtrip messageNumber command subCommand data
  ∧ ∀ packet parsed,
      createPacket messageNumber command subCommand data = Ok packet →
      parsePacket packet (2 * length data) = Ok parsed →
      response parsed = (if decide (data = []) then None else Some (words_le data)).
Proof.
  intros Hseq Hdata Hlen.
  destruct (createPacket_framed messageNumber command subCommand data Hdata Hlen)
    as (packet & Hcp & [(Hb & Hplen & Hck) _] & H5 & Hpay).
  unfold roundtrip.
  replace (2 * length data)%nat with (length data * 2)%nat by lia.
  rewrite Z.mod_small in H5 by done.
  pose proof (parsePacket_bytes packet _ _ Hb Hck) as Hparse.
  rewrite decide_True in Hparse by done. rewrite H5, Hpay in Hparse.
  assert (Hresp : (if decide ((length data * 2)%nat = 0%nat) then None
                   else Some (words_le data))
                  = (if decide (data = []) then None else Some (words_le data))).
  { destruct data; [done |]. rewrite decide_False by (simpl; lia).
    by rewrite decide_False. }
  rewrite Hresp in Hparse. split.
  - exists packet. eexists. split_and!; [done | exact Hparse | done |].
    simpl. by destruct data.
  - intros packet' parsed' Hcp' Hp'.
    rewrite Hcp in Hcp'. injection Hcp' as <-.
    rewrite Hparse in Hp'. by injection Hp' as <-.
Qed.

Lemma createPacket_parsePacket_roundtrip_witness :
  is_byte 1 ∧ Forall is_word [4; 0] ∧ roundtrip 1 7 1 [4; 0].
Proof.
  assert (H1 : is_byte 1) by done.
  assert (H2 : Forall is_word [4; 0]) by (repeat constructor; done).
  split; [done |]. split; [done |].
  apply (createPacket_parsePacket_roundtrip 1 7 1 [4; 0] H1 H2). simpl. lia.
Defined.

(** C1 as stated fails: 32768 argument words need the length prefix 65536,
    which [writeUInt16LE] refuses, so no packet is built. *)
Lemma roundtrip_fails_for_32768_words :
  is_byte 1 ∧ is_byte 0 ∧ Forall is_word (replicate (Z.to_nat 32768) 0)
  ∧ createPacket 1 1 0 (replicate (Z.to_nat 32768) 0) = Throw RangeError
  ∧ ¬ roundtrip 1 1 0 (replicate (Z.to_nat 32768) 0).
Proof.
  split; [unfold is_byte; lia |]. split; [unfold is_byte; lia |].
  split; [apply Forall_replicate; unfold is_word; lia |].
  assert (Hcp : createPacket 1 1 0 (replicate (Z.to_nat 32768) 0)
                = Throw RangeError) by (vm_compute; reflexivity).
  split; [exact Hcp |].
  intros (packet & parsed & Hok & _). rewrite Hcp in Hok. discriminate Hok.
Qed.

(** C8. With no argument, [createPacket] returns exactly 14 bytes: the
    header, a two-byte length prefix of value 0, the checksum of the ten
    bytes before it, and the footer bytes 2, 0, 0. *)
Theorem createPacket_no_arguments (messageNumber command subCommand : Z) :
  ∃ packet,
    createPacket messageNumber command subCommand [] = Ok packet
    ∧ length packet = 14%nat
    ∧ packet !! 8%nat = Some 0 ∧ packet !! 9%nat = Some 0
    ∧ packet !! 10%nat = Some (sumZ (take 10 packet) `mod` 256)
    ∧ drop 11 packet = [2; 0; 0]
    ∧ packet =
        [3; 0; 1; command `mod` 256; subCommand `mod` 256;
         messageNumber `mod` 256; 255; 255; 0; 0;
         (3 + 0 + 1 + command `mod` 256 + subCommand `mod` 256
          + messageNumber `mod` 256 + 255 + 255 + 0 + 0) `mod` 256;
         2; 0; 0].
Proof.
  pose proof (createPacket_layout messageNumber command subCommand []
                (Forall_nil_2 _) ltac:(simpl; lia)) as Hcp.
  cbn [header_of le16 words_le mbind list_bind app length Nat.mul Z.of_nat] in Hcp.
  change (Z.of_nat 0 `mod` 256) with 0 in Hcp.
  change (Z.of_nat 0 `div` 256) with 0 in Hcp.
  eexists. split; [exact Hcp |]. cbn [sumZ foldr take lookup list_lookup drop length].
  split_and!; try done.
  assert (Hsum : ∀ a b c,
    3 + (0 + (1 + (a + (b + (c + (255 + (255 + (0 + (0 + 0)))))))))
    = 3 + 0 + 1 + a + b + c + 255 + 255 + 0 + 0) by (intros; lia).
  by rewrite Hsum.
Qed.

Section receive_lemmas.

Lemma readUInt16LE_app buf rest (offset : nat) v :
  Buffer.readUInt16LE buf offset = Ok v →
  Buffer.readUInt16LE (buf ++ rest) offset = Ok v.
Proof.
  unfold Buffer.readUInt16LE.
  destruct (buf !! offset) as [a|] eqn:Ha; [| discriminate].
  destruct (buf !! S offset) as [b|] eqn:Hb; [| discriminate].
  intros Hv. by rewrite (lookup_app_l_Some _ _ _ _ Ha), (lookup_app_l_Some _ _ _ _ Hb).
Qed.

Lemma readUInt16LE_take buf (offset k : nat) v :
  (S offset < k)%nat →
  Buffer.readUInt16LE buf offset = Ok v →
  Buffer.readUInt16LE (take k buf) offset = Ok v.
Proof.
  unfold Buffer.readUInt16LE. intros Hk.
  by rewrite !lookup_take_lt by lia.
Qed.

(** Fewer than 14 bytes buffered: [receive] only appends. *)
Lemma receive_short cam data :
  (length (receiveBuffer cam ++ data) < 14)%nat →
  receive cam data =
    MkReceived (MkCamera (messageNumber cam) (receiveBuffer cam ++ data)
                         (awaiters cam)) None Idle.
Proof. intros Hlen. unfold receive. by rewrite decide_False by lia. Qed.

(** The length field is readable but the packet is not complete yet. *)
Lemma receive_incomplete cam data dataSize :
  Buffer.readUInt16LE (receiveBuffer cam ++ data) 8 = Ok dataSize →
  (length (receiveBuffer cam ++ data) < 14 + Z.to_nat dataSize)%nat →
  receive cam data =
    MkReceived (MkCamera (messageNumber cam) (receiveBuffer cam ++ data)
                         (awaiters cam)) None Idle.
Proof.
  intros Hsize Hlen. unfold receive.
  destruct (decide (14 ≤ _)%nat); [| done].
  rewrite Hsize. by rewrite decide_False by lia.
Qed.

(** A framed packet at the front of the buffer is cut off and decoded;
    whatever follows it stays in the buffer. *)
Lemma receive_framed cam data packet n rest :
  framed_packet packet n →
  receiveBuffer cam ++ data = packet ++ rest →
  receive cam data =
    MkReceived (MkCamera (messageNumber cam) rest
                         (emit (awaiters cam) (packet !! 5%nat)))
               (Some packet) (decoded packet n).
Proof.
  intros [(Hb & Hlen & Hck) Hsize] Heq. unfold receive. rewrite Heq.
  rewrite decide_True by (rewrite length_app; lia).
  rewrite (readUInt16LE_app _ _ _ _ Hsize). rewrite Nat2Z.id.
  rewrite decide_True by (rewrite length_app; lia).
  unfold Buffer.subarray. rewrite drop_0, Nat.sub_0_r.
  rewrite <- Hlen. rewrite take_app_length, drop_app_length.
  rewrite (parsePacket_bytes packet n _ Hb Hck).
  by rewrite decide_True.
Qed.

End receive_lemmas.

Section reassembly_lemmas.

(** Empty chunks on an empty buffer do nothing. *)
Lemma receive_all_nothing chunks : ∀ cam,
  receiveBuffer cam = [] →
  concat chunks = [] →
  (receive_all cam chunks).1 = cam
  ∧ events (receive_all cam chunks).2 = []
  ∧ slices (receive_all cam chunks).2 = [].
Proof.
  induction chunks as [|data chunks IH]; intros cam Hbuf Hcat; [done |].
  simpl in Hcat. apply app_eq_nil in Hcat as [-> Hcat].
  assert (Hr : receive cam [] = MkReceived cam None Idle).
  { rewrite receive_short by (rewrite Hbuf; simpl; lia).
    destruct cam; simpl in *. by subst. }
  simpl. rewrite Hr. simpl.
  destruct (IH cam Hbuf Hcat) as (H1 & H2 & H3).
  destruct (receive_all cam chunks) as [cam' rs]. by simpl in *.
Qed.

(** The chunks of one framed packet, fed to a camera that already holds a
    proper prefix of it: one slice, one event, nothing left over. *)
Lemma receive_all_fragments packet n chunks : ∀ cam,
  framed_packet packet n →
  receiveBuffer cam ++ concat chunks = packet →
  (length (receiveBuffer cam) < length packet)%nat →
  (receive_all cam chunks).1
    = MkCamera (messageNumber cam) []
               (emit (awaiters cam) (packet !! 5%nat))
  ∧ events (receive_all cam chunks).2 = [decoded packet n]
  ∧ slices (receive_all cam chunks).2 = [packet].
Proof.
  induction chunks as [|data chunks IH]; intros cam Hf Hcat Hlt.
  { simpl in Hcat. rewrite app_nil_r in Hcat. subst. lia. }
  simpl in Hcat. rewrite app_assoc in Hcat.
  destruct (decide (length (receiveBuffer cam ++ data) < length packet)%nat)
    as [Hpart|Hfull].
  - (* still a proper prefix *)
    assert (Hr : receive cam data =
              MkReceived (MkCamera (messageNumber cam)
                            (receiveBuffer cam ++ data) (awaiters cam))
                         None Idle).
    { destruct (decide (length (receiveBuffer cam ++ data) < 14)%nat)
        as [Hshort|Hlong]; [by apply receive_short |].
      destruct Hf as [(_ & Hlen & _) Hsize].
      apply (receive_incomplete _ _ (Z.of_nat n)); [| rewrite Nat2Z.id; lia].
      rewrite <- Hcat in Hsize.
      apply (readUInt16LE_take _ 8 (length (receiveBuffer cam ++ data)))
        in Hsize; [| lia].
      by rewrite take_app_length in Hsize. }
    simpl. rewrite Hr. simpl.
    specialize (IH (MkCamera (messageNumber cam)
                      (receiveBuffer cam ++ data) (awaiters cam)) Hf Hcat Hpart).
    destruct (receive_all _ chunks) as [cam' rs]. by simpl in *.
  - (* the packet is complete *)
    assert (Hrest : concat chunks = []).
    { apply (f_equal length) in Hcat. rewrite length_app in Hcat.
      apply length_zero_iff_nil. lia. }
    rewrite Hrest, app_nil_r in Hcat.
    assert (Hr := receive_framed cam data packet n [] Hf).
    rewrite app_nil_r in Hr. specialize (Hr Hcat).
    simpl. rewrite Hr. simpl.
    destruct (receive_all_nothing chunks
                (MkCamera (messageNumber cam) []
                   (emit (awaiters cam) (packet !! 5%nat))) eq_refl Hrest)
      as (H1 & H2 & H3).
    destruct (receive_all _ chunks) as [cam' rs]. simpl in *.
    destruct Hf as [(_ & Hlen & _) _].
    unfold decoded at 1. simpl. by rewrite H1, H2, H3.
Qed.

(** One [receive]: the slice cut off followed by the new buffer is the old
    buffer followed by the chunk, and a slice has 14 bytes more than the
    data size read at offset 8. *)
Lemma receive_conserves cam data :
  default [] (rcv_packet (receive cam data))
    ++ receiveBuffer (rcv_camera (receive cam data))
  = receiveBuffer cam ++ data
  ∧ ∀ packet, rcv_packet (receive cam data) = Some packet →
      ∃ dataSize,
        Buffer.readUInt16LE (receiveBuffer cam ++ data) 8 = Ok dataSize
        ∧ length packet = (14 + Z.to_nat dataSize)%nat
        ∧ packet = take (length packet) (receiveBuffer cam ++ data)
        ∧ receiveBuffer (rcv_camera (receive cam data))
          = drop (length packet) (receiveBuffer cam ++ data).
Proof.
  unfold receive. set (rb := receiveBuffer cam ++ data).
  destruct (decide (14 ≤ length rb)%nat) as [H14|H14]; [| by split].
  destruct (Buffer.readUInt16LE rb 8) as [dataSize|e] eqn:Hsize; [| by split].
  destruct (decide (14 + Z.to_nat dataSize ≤ length rb)%nat) as [Hfit|Hfit];
    [| by split].
  unfold Buffer.subarray. rewrite drop_0, Nat.sub_0_r.
  assert (Hplen : length (take (14 + Z.to_nat dataSize) rb)
                  = (14 + Z.to_nat dataSize)%nat)
    by (rewrite length_take; lia).
  destruct (parsePacket _ _);
    cbn [rcv_packet rcv_camera receiveBuffer from_option id];
    (split; [apply take_drop |]);
    intros packet Hp; apply (inj Some) in Hp; subst packet;
    exists dataSize; by rewrite Hplen.
Qed.

Lemma receive_all_conserves chunks : ∀ cam,
  concat (slices (receive_all cam chunks).2)
    ++ receiveBuffer (receive_all cam chunks).1
  = receiveBuffer cam ++ concat chunks.
Proof.
  induction chunks as [|data chunks IH]; intros cam; simpl.
  { by rewrite app_nil_r. }
  specialize (IH (rcv_camera (receive cam data))).
  destruct (receive_conserves cam data) as [Hone _].
  destruct (receive_all _ chunks) as [cam' rs]. simpl in *.
  rewrite app_assoc, <- Hone. unfold slices in *. simpl.
  destruct (rcv_packet (receive cam data)); simpl;
    rewrite <- ?app_assoc; by rewrite IH.
Qed.

End reassembly_lemmas.

(** A concrete packet is framed: every conjunct computes. *)
Ltac framed_by_computation :=
  split; [split; [repeat constructor; done | split; reflexivity] | reflexivity].

(** C2 (what the code does). Two valid packets delivered as one chunk to a
    fresh camera: that [receive] cuts off and decodes the first packet only
    and leaves the second in the buffer; the second is decoded by the next
    [receive], whatever it brings (here an empty chunk). *)
Theorem receive_two_packets_decodes_first_only
  (p1 p2 : list Z) (n1 n2 : nat) :
  framed_packet p1 n1 →
  framed_packet p2 n2 →
  receive new_Camera (p1 ++ p2)
    = MkReceived (MkCamera 1 p2 []) (Some p1) (decoded p1 n1)
  ∧ events (receive_all new_Camera [p1 ++ p2]).2 = [decoded p1 n1]
  ∧ receiveBuffer (receive_all new_Camera [p1 ++ p2]).1 = p2
  ∧ events (receive_all new_Camera [p1 ++ p2; []]).2
    = [decoded p1 n1; decoded p2 n2].
Proof.
  intros Hf1 Hf2.
  assert (H1 : receive new_Camera (p1 ++ p2)
               = MkReceived (MkCamera 1 p2 []) (Some p1) (decoded p1 n1))
    by exact (receive_framed new_Camera (p1 ++ p2) p1 n1 p2 Hf1 eq_refl).
  assert (H2 : receive (MkCamera 1 p2 []) []
               = MkReceived (MkCamera 1 [] []) (Some p2) (decoded p2 n2))
    by exact (receive_framed (MkCamera 1 p2 []) [] p2 n2 [] Hf2 eq_refl).
  split; [exact H1 |].
  cbn [receive_all]. rewrite H1. cbn [rcv_camera]. rewrite H2. done.
Qed.

Lemma receive_two_packets_decodes_first_only_witness :
  let p1 := [3; 0; 1; 1; 2; 1; 0; 0; 2; 0; 1; 0; 11; 0; 0; 0] in
  let p2 := [3; 0; 1; 5; 5; 2; 0; 0; 2; 0; 3; 0; 21; 0; 0; 0] in
  framed_packet p1 2 ∧ framed_packet p2 2
  ∧ receive new_Camera (p1 ++ p2)
    = MkReceived (MkCamera 1 p2 []) (Some p1) (Emit (Some 1) (Some [1; 0])).
Proof.
  intros p1 p2.
  assert (Hf1 : framed_packet p1 2).
  { framed_by_computation. }
  assert (Hf2 : framed_packet p2 2).
  { framed_by_computation. }
  split; [done |]. split; [done |].
  exact (proj1 (receive_two_packets_decodes_first_only p1 p2 2 2 Hf1 Hf2)).
Defined.

(** C5. A valid packet cut into chunks in any way (non-empty chunks, and
    empty ones as well) and fed chunk by chunk to a fresh camera gives one
    decoded packet, the same as the packet delivered whole, and leaves the
    receive buffer empty. *)
Theorem fragmentation_invariance (packet : list Z) (n : nat)
  (chunks : list (list Z)) :
  framed_packet packet n →
  concat chunks = packet →
  events (receive_all new_Camera chunks).2
    = events (receive_all new_Camera [packet]).2
  ∧ events (receive_all new_Camera chunks).2 = [decoded packet n]
  ∧ slices (receive_all new_Camera chunks).2 = [packet]
  ∧ receiveBuffer (receive_all new_Camera chunks).1 = [].
Proof.
  intros Hf Hcat.
  assert (Hpos : (length (receiveBuffer new_Camera) < length packet)%nat).
  { destruct Hf as [(_ & Hlen & _) _]. simpl. lia. }
  destruct (receive_all_fragments packet n chunks new_Camera Hf Hcat Hpos)
    as (Hcam & Hev & Hsl).
  destruct (receive_all_fragments packet n [packet] new_Camera Hf
              (app_nil_r _) Hpos) as (_ & Hev1 & _).
  rewrite Hev, Hev1, Hsl, Hcam. done.
Qed.

Lemma fragmentation_invariance_witness :
  let packet := [3; 0; 1; 5; 5; 2; 0; 0; 2; 0; 3; 0; 21; 0; 0; 0] in
  let chunks := [[3]; [0; 1]; [5; 5]; [2; 0; 0]; [2; 0]; [3; 0]; [21; 0]; [0; 0]] in
  framed_packet packet 2
  ∧ events (receive_all new_Camera chunks).2 = [Emit (Some 2) (Some [3; 0])]
  ∧ receiveBuffer (receive_all new_Camera chunks).1 = [].
Proof.
  intros packet chunks.
  assert (Hf : framed_packet packet 2).
  { framed_by_computation. }
  destruct (fragmentation_invariance packet 2 chunks Hf eq_refl)
    as (_ & Hev & _ & Hbuf).
  split; [done |]. split; [exact Hev | exact Hbuf].
Defined.

(** C10. Bytes are conserved by the reassembler: after any sequence of
    chunks, the slices cut off so far followed by the receive buffer are the
    chunks delivered so far, in order; and each [receive] that cuts a slice
    takes exactly 14 bytes plus the data size read at offset 8 off the front
    of the buffer. *)
Theorem receive_conserves_bytes (cam : Camera) (chunks : list (list Z))
  (data : list Z) :
  concat (slices (receive_all new_Camera chunks).2)
    ++ receiveBuffer (receive_all new_Camera chunks).1
  = concat chunks
  ∧ concat (slices (receive_all cam chunks).2)
      ++ receiveBuffer (receive_all cam chunks).1
    = receiveBuffer cam ++ concat chunks
  ∧ default [] (rcv_packet (receive cam data))
      ++ receiveBuffer (rcv_camera (receive cam data))
    = receiveBuffer cam ++ data
  ∧ ∀ packet, rcv_packet (receive cam data) = Some packet →
      ∃ dataSize,
        Buffer.readUInt16LE (receiveBuffer cam ++ data) 8 = Ok dataSize
        ∧ length packet = (14 + Z.to_nat dataSize)%nat
        ∧ packet = take (length packet) (receiveBuffer cam ++ data)
        ∧ receiveBuffer (rcv_camera (receive cam data))
          = drop (length packet) (receiveBuffer cam ++ data).
Proof.
  split; [exact (receive_all_conserves chunks new_Camera) |].
  split; [exact (receive_all_conserves chunks cam) |].
  exact (receive_conserves cam data).
Qed.

Lemma receive_conserves_bytes_witness :
  let cam := MkCamera 1 [3; 0; 1; 5; 5; 2; 0; 0] [2] in
  let data := [2; 0; 3; 0; 21; 0; 0; 0; 3; 0] in
  rcv_packet (receive cam data)
    = Some [3; 0; 1; 5; 5; 2; 0; 0; 2; 0; 3; 0; 21; 0; 0; 0]
  ∧ ∃ dataSize,
      Buffer.readUInt16LE (receiveBuffer cam ++ data) 8 = Ok dataSize
      ∧ 16%nat = (14 + Z.to_nat dataSize)%nat
      ∧ receiveBuffer (rcv_camera (receive cam data)) = [3; 0].
Proof.
  intros cam data.
  assert (Hp : rcv_packet (receive cam data)
               = Some [3; 0; 1; 5; 5; 2; 0; 0; 2; 0; 3; 0; 21; 0; 0; 0])
    by reflexivity.
  split; [exact Hp |].
  destruct (receive_conserves_bytes cam [] data) as (_ & _ & _ & Hslice).
  destruct (Hslice _ Hp) as (dataSize & Hsize & Hlen & _ & Hbuf).
  exists dataSize. split; [exact Hsize |]. split; [exact Hlen |]. exact Hbuf.
Defined.

Section string_lemmas.
Local Open Scope string_scope.

Lemma string_app_cons c (s t : string) : String c s ++ t = String c (s ++ t).
Proof. reflexivity. Qed.

Lemma string_app_nil_l (s : string) : EmptyString ++ s = s.
Proof. reflexivity. Qed.

Lemma string_app_nil_r (s : string) : s ++ EmptyString = s.
Proof.
  induction s as [|c s IH]; [done |]. by rewrite string_app_cons, IH.
Qed.

Lemma string_app_assoc (s1 s2 s3 : string) : (s1 ++ s2) ++ s3 = s1 ++ s2 ++ s3.
Proof.
  induction s1 as [|c s1 IH]; [done |]. by rewrite !string_app_cons, IH.
Qed.

Lemma concat_mentions sep (names : list string) name :
  name ∈ names →
  ∃ pre post, String.concat sep names = pre ++ name ++ post.
Proof.
  induction names as [|x names IH]; intros Hin; [by apply elem_of_nil in Hin |].
  apply elem_of_cons in Hin as [->|Hin].
  - destruct names as [|y names].
    + exists EmptyString, EmptyString.
      by rewrite string_app_nil_l, string_app_nil_r.
    + exists EmptyString. eexists. rewrite string_app_nil_l. reflexivity.
  - destruct (IH Hin) as (pre & post & Heq).
    destruct names as [|y names]; [by apply elem_of_nil in Hin |].
    exists (x ++ sep ++ pre), post.
    change (String.concat sep (x :: y :: names))
      with (x ++ sep ++ String.concat sep (y :: names)).
    rewrite Heq. by rewrite !string_app_assoc.
Qed.

Lemma invalid_message_mentions mode options name :
  name ∈ keys options → mentions (invalid_message mode options) name.
Proof.
  intros Hin. unfold mentions, invalid_message.
  destruct (concat_mentions ", " (quoted <$> keys options) (quoted name))
    as (pre & post & Heq); [by apply list_elem_of_fmap_2 |].
  rewrite Heq.
  exists ("Option " ++ quoted mode
            ++ " is invalid. Available options are [" ++ pre),
         (post ++ "]").
  by rewrite !string_app_assoc.
Qed.

End string_lemmas.

Section table_lemmas.

Lemma get_elem_of (obj : object) key v : get obj key = Some v → (key, v) ∈ obj.
Proof.
  induction obj as [|[k w] obj IH]; simpl; [done |].
  case_decide as Hk; [intros [= <-]; subst; left | right; auto].
Qed.

Lemma get_is_Some (obj : object) key : key ∈ keys obj → is_Some (get obj key).
Proof.
  unfold keys. induction obj as [|[k w] obj IH]; simpl.
  - intros Hin. by apply elem_of_nil in Hin.
  - intros Hin. case_decide as Hk; [eauto |].
    apply elem_of_cons in Hin as [?|Hin]; [congruence | auto].
Qed.

Lemma get_None (obj : object) key : key ∉ keys obj → get obj key = None.
Proof.
  unfold keys. induction obj as [|[k w] obj IH]; simpl; [done |].
  intros Hin. apply not_elem_of_cons in Hin as [Hne Hin].
  by rewrite decide_False by congruence; auto.
Qed.

Lemma validate_invalid mode options :
  mode ∉ keys options →
  validate mode options = Throw (InvalidOption (invalid_message mode options)).
Proof. intros Hin. unfold validate. by rewrite bool_decide_eq_false_2. Qed.

Lemma validate_valid mode options :
  mode ∈ keys options →
  ∃ v, get options mode = Some v ∧ (mode, v) ∈ options
       ∧ validate mode options = Ok (Some v).
Proof.
  intros Hin. destruct (get_is_Some options mode Hin) as [v Hv].
  exists v. split; [done |]. split; [by apply get_elem_of |].
  unfold validate. rewrite bool_decide_eq_true_2 by done. by rewrite Hv.
Qed.

(** The loop of [invertMap], from any intermediate [inverted]. *)
Lemma invert_loop_None (obj : object) names : ∀ (inverted : gmap Z string) v,
  inverted !! v = None →
  (∀ name, get obj name ≠ Some v) →
  foldl (λ inverted key,
           match get obj key with
           | Some v => <[v := key]> inverted
           | None => inverted
           end) inverted names !! v = None.
Proof.
  induction names as [|name names IH]; intros inverted v Hv Hno; [done |].
  simpl. apply IH; [| done].
  destruct (get obj name) as [w|] eqn:Hw; [| done].
  rewrite lookup_insert_ne; [done |]. intros ->. by apply (Hno name).
Qed.

Lemma invertMap_None (obj : object) v :
  (∀ name, get obj name ≠ Some v) → invertMap obj !! v = None.
Proof. intros Hno. by apply invert_loop_None. Qed.

End table_lemmas.

Section send_lemmas.

(** Byte 5 of any packet built by [createPacket] is the message number
    reduced to a byte. *)
Lemma createPacket_sequence_byte messageNumber command subCommand data packet :
  createPacket messageNumber command subCommand data = Ok packet →
  packet !! 5%nat = Some (messageNumber `mod` 256).
Proof.
  unfold createPacket.
  destruct (match data with [] => _ | _ => _ end) as [dataBlock|e];
    [| discriminate].
  cbv beta iota zeta delta [rbind]. intros [= <-]. reflexivity.
Qed.

(** One [send]: the listener is registered under the counter itself, the
    packet carries the counter reduced to a byte, and the counter grows by
    one without wrapping. *)
Lemma send_key_and_sequence_byte cam command args s :
  send cam command args = Ok s →
  sent_key s = messageNumber cam
  ∧ sent_packet s !! 5%nat = Some (messageNumber cam `mod` 256)
  ∧ messageNumber (sent_camera s) = messageNumber cam + 1
  ∧ awaiters (sent_camera s) = awaiters cam ++ [messageNumber cam].
Proof.
  unfold send.
  destruct (match args with [] => _ | _ => _ end) as [packet|e] eqn:Hcp;
    [| discriminate].
  cbv beta iota zeta delta [rbind]. intros [= <-]. split_and!; try done.
  cbn [sent_packet]. destruct args; by eapply createPacket_sequence_byte.
Qed.

End send_lemmas.

(** C3 (what the code does). After 255 sends on a fresh camera the counter is
    256. The next send puts sequence number 0 in the packet but registers its
    listener under 256 and moves the counter to 257; the response carrying
    sequence number 0 is emitted as event 0 and leaves that listener
    pending. *)
Theorem send_counter_does_not_wrap :
  ∃ cam s,
    send_many new_Camera 255 1 [2] = Ok cam
    ∧ messageNumber cam = 256
    ∧ send cam 1 [2] = Ok s
    ∧ sent_packet s !! 5%nat = Some 0
    ∧ sent_key s = 256
    ∧ messageNumber (sent_camera s) = 257
    ∧ let reply := [3; 0; 1; 1; 2; 0; 0; 0; 2; 0; 1; 0; 10; 0; 0; 0] in
      rcv_outcome (receive (sent_camera s) reply) = Emit (Some 0) (Some [1; 0])
      ∧ 256 ∈ awaiters (rcv_camera (receive (sent_camera s) reply)).
Proof.
  destruct (send_many new_Camera 255 1 [2]) as [cam|e] eqn:Hmany;
    [| vm_compute in Hmany; discriminate].
  destruct (send cam 1 [2]) as [s|e] eqn:Hsend;
    [| vm_compute in Hmany; injection Hmany as <-;
       vm_compute in Hsend; discriminate].
  exists cam, s.
  vm_compute in Hmany. injection Hmany as <-.
  vm_compute in Hsend. injection Hsend as <-.
  split_and!; try reflexivity.
  intros reply. split; [vm_compute; reflexivity |].
  refine (bool_decide_unpack _ _). vm_compute. exact I.
Qed.

(** Case analysis on a membership in a table written out as a list. *)
Ltac case_table H :=
  repeat (apply elem_of_cons in H as [[= -> ->]|H]);
  try (by apply elem_of_nil in H).

(** C6. For each mode setter, a mode that is not a key of its option map
    makes the call fail with the error of [validate], whose message names
    every key of the map, before anything is sent; a mode that is a key
    passes [validate], which returns the wire value of that key, and the
    setter goes on to send. *)
Theorem setter_validates_option
  (setter : string → proc (option (list Z))) (MODES : object) (mode : string) :
  (setter, MODES) ∈ mode_setters →
  (mode ∉ keys MODES →
     validate mode MODES = Throw (InvalidOption (invalid_message mode MODES))
     ∧ setter mode = Reject (InvalidOption (invalid_message mode MODES))
     ∧ sends_nothing (setter mode)
     ∧ ∀ name, name ∈ keys MODES → mentions (invalid_message mode MODES) name)
  ∧ (mode ∈ keys MODES →
     ∃ v, (mode, v) ∈ MODES
          ∧ validate mode MODES = Ok (Some v)
          ∧ ¬ sends_nothing (setter mode)).
Proof.
  intros Hsetter. split.
  - intros Hbad. pose proof (validate_invalid mode MODES Hbad) as Hv.
    split; [done |].
    assert (Hrej : setter mode
                   = Reject (InvalidOption (invalid_message mode MODES))).
    { unfold mode_setters in Hsetter. case_table Hsetter;
        unfold setAGC, setITT, setLUT, setNUC; by rewrite Hv. }
    split; [done |]. split; [by rewrite Hrej |].
    intros name. apply invalid_message_mentions.
  - intros Hgood. destruct (validate_valid mode MODES Hgood) as (v & Hget & Hin & Hv).
    exists v. split; [done |]. split; [done |].
    unfold mode_setters in Hsetter. case_table Hsetter;
      unfold setAGC, setITT, setLUT, setNUC, send_mode; rewrite Hv, ?Hget;
      try case_decide; simpl; tauto.
Qed.

Lemma setter_validates_option_witness :
  (setAGC, AGC_MODES) ∈ mode_setters
  ∧ "fake"%string ∉ keys AGC_MODES
  ∧ "horizon"%string ∈ keys AGC_MODES
  ∧ setAGC "fake"
    = Reject (InvalidOption
        ("Option " ++ quoted "fake" ++ " is invalid. Available options are ["
           ++ quoted "off" ++ ", " ++ quoted "full" ++ ", "
           ++ quoted "midsize" ++ ", " ++ quoted "center" ++ ", "
           ++ quoted "horizon" ++ "]")%string)
  ∧ ∃ v, ("horizon"%string, v) ∈ AGC_MODES
         ∧ validate "horizon" AGC_MODES = Ok (Some v)
         ∧ ¬ sends_nothing (setAGC "horizon").
Proof.
  assert (Hs : (setAGC, AGC_MODES) ∈ mode_setters) by (left; done).
  assert (Hbad : "fake"%string ∉ keys AGC_MODES).
  { intros Hin. apply list_elem_of_In in Hin. simpl in Hin.
    repeat destruct Hin as [Hin|Hin]; try discriminate Hin. done. }
  assert (Hgood : "horizon"%string ∈ keys AGC_MODES).
  { apply list_elem_of_In. simpl. tauto. }
  destruct (setter_validates_option setAGC AGC_MODES "fake" Hs) as [Hrej _].
  destruct (setter_validates_option setAGC AGC_MODES "horizon" Hs) as [_ Hok].
  destruct (Hrej Hbad) as (_ & Hmsg & _).
  split; [exact Hs |]. split; [exact Hbad |]. split; [exact Hgood |].
  split; [exact Hmsg | exact (Hok Hgood)].
Defined.

(** C7 (amended). For each mode getter, a response whose 16-bit value has no
    entry in the option map makes the getter return [undefined]. *)
Theorem getter_unmapped_value_is_undefined
  (getter : proc (option string)) (MODES : object) (payload : list Z) (v : Z) :
  (getter, MODES) ∈ mode_getters →
  Buffer.readUInt16LE payload 0 = Ok v →
  (∀ name, get MODES name ≠ Some v) →
  resume getter (Some payload) = Return None.
Proof.
  intros Hgetter Hread Hno. unfold mode_getters in Hgetter.
  case_table Hgetter;
    cbn [resume getITT getLUT getNUC send_fn]; unfold mode_of; rewrite Hread;
    f_equal; by apply invertMap_None.
Qed.

Lemma getter_unmapped_value_is_undefined_witness :
  (getITT, ITT_MODES) ∈ mode_getters
  ∧ Buffer.readUInt16LE [9; 0] 0 = Ok 9
  ∧ (∀ name, get ITT_MODES name ≠ Some 9)
  ∧ resume getITT (Some [9; 0]) = Return None.
Proof.
  assert (Hg : (getITT, ITT_MODES) ∈ mode_getters) by (left; done).
  assert (Hno : ∀ name, get ITT_MODES name ≠ Some 9).
  { intros name. unfold ITT_MODES, get. repeat case_decide; discriminate. }
  split; [done |]. split; [done |]. split; [done |].
  exact (getter_unmapped_value_is_undefined getITT ITT_MODES [9; 0] 9
           Hg eq_refl Hno).
Defined.

(** C7 as stated fails: the value 0 has no entry in [ITT_MODES], and
    [getITT] resumed with the payload 0 returns [undefined], the same kind of
    value as when no distinct outcome exists. *)
Lemma getITT_unmapped_returns_undefined :
  Buffer.readUInt16LE [0; 0] 0 = Ok 0
  ∧ (∀ name, get ITT_MODES name ≠ Some 0)
  ∧ ¬ (∃ outcome : string, resume getITT (Some [0; 0]) = Return (Some outcome))
  ∧ resume getITT (Some [0; 0]) = Return None.
Proof.
  split; [done |]. split.
  { intros name. unfold ITT_MODES, get. repeat case_decide; discriminate. }
  assert (Hr : resume getITT (Some [0; 0]) = Return None)
    by (vm_compute; reflexivity).
  split; [| done]. intros [outcome Ho]. rewrite Hr in Ho. discriminate.
Qed.

(** * Further properties of the codec *)

Section createPacket_inversion.

Lemma writeUInt16LE_Ok_inv buf value offset buf' :
  Buffer.writeUInt16LE buf value offset = Ok buf' → is_word value.
Proof.
  unfold Buffer.writeUInt16LE, is_word.
  destruct (bool_decide (0 ≤ value ≤ 65535)) eqn:Hv; [| discriminate].
  intros _. by apply bool_decide_eq_true in Hv.
Qed.

Lemma writeUInt16LE_Throw_inv buf value offset e :
  Buffer.writeUInt16LE buf value offset = Throw e → e = RangeError.
Proof.
  unfold Buffer.writeUInt16LE. destruct (_ && _); [discriminate |].
  by intros [= <-].
Qed.

Lemma write_words_Ok_inv data : ∀ dataBlock i dataBlock',
  write_words dataBlock data i = Ok dataBlock' → Forall is_word data.
Proof.
  induction data as [|w data IH]; intros dataBlock i dataBlock' Hw;
    [constructor |].
  cbn [write_words] in Hw.
  destruct (Buffer.writeUInt16LE dataBlock w (2 + i * 2)) as [db|e] eqn:Hone;
    [| discriminate].
  constructor; [by eapply writeUInt16LE_Ok_inv | by eapply IH].
Qed.

Lemma write_words_Throw_inv data : ∀ dataBlock i e,
  write_words dataBlock data i = Throw e → e = RangeError.
Proof.
  induction data as [|w data IH]; intros dataBlock i e Hw; [discriminate |].
  cbn [write_words] in Hw.
  destruct (Buffer.writeUInt16LE dataBlock w (2 + i * 2)) as [db|e'] eqn:Hone.
  - by eapply IH.
  - injection Hw as <-. by eapply writeUInt16LE_Throw_inv.
Qed.

(** A packet is built only from in-range words, few enough for the length
    prefix; the only exception [createPacket] raises is the range error. *)
Lemma createPacket_inv messageNumber command subCommand data :
  match createPacket messageNumber command subCommand data with
  | Ok _ => Forall is_word data ∧ Z.of_nat (length data) ≤ 32767
  | Throw e => e = RangeError
  end.
Proof.
  unfold createPacket. destruct data as [|w data].
  - cbv beta iota zeta delta [rbind]. split; [constructor | simpl; lia].
  - remember (w :: data) as ws eqn:Hws.
    destruct (Buffer.writeUInt16LE (Buffer.alloc (2 + length ws * 2))
                (Z.of_nat (length ws * 2)) 0) as [db|e] eqn:Hlen.
    + cbv beta iota zeta delta [rbind].
      destruct (write_words db ws 0) as [db'|e] eqn:Hwords.
      * split; [by eapply write_words_Ok_inv |].
        apply writeUInt16LE_Ok_inv in Hlen. unfold is_word in Hlen. lia.
      * by eapply write_words_Throw_inv.
    + cbv beta iota zeta delta [rbind]. by eapply writeUInt16LE_Throw_inv.
Qed.

End createPacket_inversion.



(** X2. Whatever [createPacket] returns is a well-formed packet: bytes only,
    the constant header with the three given fields reduced mod 256, the
    length field equal to the number of data bytes, the words in
    little-endian order, the checksum of everything before it, and the
    footer 2, 0, 0. *)
Theorem createPacket_builds_wellformed_packet
  (messageNumber command subCommand : Z) (data : list Z) (packet : list Z) :
  createPacket messageNumber command subCommand data = Ok packet →
  framed_packet packet (length data * 2)
  ∧ take 8 packet = header_of messageNumber command subCommand
  ∧ take 2 (drop 8 packet) = le16 (Z.of_nat (length data * 2))
  ∧ take (length data * 2) (drop 10 packet) = words_le data
  ∧ drop (11 + length data * 2) packet = [2; 0; 0].
Proof.
  intros Hp.
  pose proof (createPacket_inv messageNumber command subCommand data) as Hinv.
  rewrite Hp in Hinv. destruct Hinv as [Hdata Hlen].
  destruct (createPacket_framed messageNumber command subCommand data
              Hdata Hlen) as (packet' & Hp' & Hframed & _ & Hwords).
  rewrite Hp in Hp'. injection Hp' as <-.
  split; [done |].
  pose proof (createPacket_layout messageNumber command subCommand data
                Hdata Hlen) as Hlayout. cbv zeta in Hlayout.
  set (msg := header_of messageNumber command subCommand
                ++ le16 (Z.of_nat (length data * 2)) ++ words_le data) in *.
  assert (Hpk : packet = msg ++ [sumZ msg `mod` 256; 2; 0; 0]) by congruence.
  assert (Hmlen : length msg = (10 + length data * 2)%nat).
  { unfold msg. rewrite !length_app, length_words_le. simpl. lia. }
  split_and!; [by rewrite Hpk | by rewrite Hpk | done |].
  replace (11 + length data * 2)%nat with (length msg + 1)%nat by lia.
  rewrite Hpk, <- drop_drop, drop_app_length. reflexivity.
Qed.

Lemma createPacket_builds_wellformed_packet_witness :
  let packet := [3; 0; 1; 7; 5; 1; 255; 255; 2; 0; 4; 0; 21; 2; 0; 0] in
  createPacket 1 7 5 [4] = Ok packet
  ∧ framed_packet packet 2
  ∧ drop 13 packet = [2; 0; 0].
Proof.
  intros packet.
  assert (Hp : createPacket 1 7 5 [4] = Ok packet) by (vm_compute; reflexivity).
  destruct (createPacket_builds_wellformed_packet 1 7 5 [4] packet Hp)
    as (Hf & _ & _ & _ & Hfoot).
  split; [exact Hp |]. split; [exact Hf | exact Hfoot].
Defined.

(** X3. Message numbers that differ by a multiple of 256 give the same
    packet: only the low byte of the counter reaches the wire. The same
    holds for the command and subcommand. *)
Theorem createPacket_header_fields_mod_256
  (messageNumber command subCommand k1 k2 k3 : Z) (data : list Z) :
  createPacket (messageNumber + 256 * k1) (command + 256 * k2)
               (subCommand + 256 * k3) data
  = createPacket messageNumber command subCommand data.
Proof.
  unfold createPacket, Buffer.set, Buffer.toUint8.
  replace ((messageNumber + 256 * k1) `mod` 256) with (messageNumber `mod` 256)
    by (rewrite (Z.mul_comm 256), Z_mod_plus_full; done).
  replace ((command + 256 * k2) `mod` 256) with (command `mod` 256)
    by (rewrite (Z.mul_comm 256), Z_mod_plus_full; done).
  replace ((subCommand + 256 * k3) `mod` 256) with (subCommand `mod` 256)
    by (rewrite (Z.mul_comm 256), Z_mod_plus_full; done).
  reflexivity.
Qed.

(** X4. Decoding any packet built by [createPacket], with the data size of
    its words, succeeds and gives the message number reduced mod 256 and the
    words as little-endian bytes ([undefined] when there is none). *)
Theorem parsePacket_createPacket_any_message_number
  (messageNumber command subCommand : Z) (data : list Z) (packet : list Z) :
  createPacket messageNumber command subCommand data = Ok packet →
  parsePacket packet (length data * 2)
  = Ok (MkParsed (Some (messageNumber `mod` 256))
          (if decide (data = []) then None else Some (words_le data))).
Proof.
  intros Hp.
  pose proof (createPacket_inv messageNumber command subCommand data) as Hinv.
  rewrite Hp in Hinv. destruct Hinv as [Hdata Hlen].
  destruct (createPacket_framed messageNumber command subCommand data
              Hdata Hlen)
    as (packet' & Hp' & [(Hb & _ & Hck) _] & H5 & Hwords).
  rewrite Hp in Hp'. injection Hp' as <-.
  rewrite (parsePacket_bytes packet _ _ Hb Hck).
  destruct (decide (_ = _)) as [_|Hne]; [| done].
  rewrite H5, Hwords. do 2 f_equal.
  destruct data; [done |]. rewrite decide_False by (simpl; lia).
  by rewrite decide_False.
Qed.

Lemma parsePacket_createPacket_any_message_number_witness :
  ∃ packet,
    createPacket 256 1 2 [] = Ok packet
    ∧ parsePacket packet 0 = Ok (MkParsed (Some 0) None).
Proof.
  destruct (createPacket 256 1 2 []) as [packet|e] eqn:Hp;
    [| vm_compute in Hp; discriminate Hp].
  exists packet. split; [reflexivity |].
  exact (parsePacket_createPacket_any_message_number 256 1 2 [] packet Hp).
Defined.

(** X5. [parsePacket] never accepts a buffer too short to hold the checksum
    byte of the declared data size: the byte read at offset [10 + n] is
    [undefined] and the checksum error is thrown. *)
Theorem parsePacket_short_buffer_throws (buff : list Z) (n : nat) :
  (length buff ≤ 10 + n)%nat →
  ∃ expected, parsePacket buff n = Throw (IncorrectChecksum expected None).
Proof.
  intros Hlen. unfold parsePacket.
  rewrite (lookup_ge_None_2 buff (10 + n)) by lia.
  cbn [strict_ne_mod]. eauto.
Qed.

Lemma parsePacket_short_buffer_throws_witness :
  ∃ expected,
    parsePacket [3; 0; 1; 7; 5; 1; 255; 255; 2; 0; 4; 0] 2
    = Throw (IncorrectChecksum expected None).
Proof.
  apply (parsePacket_short_buffer_throws
           [3; 0; 1; 7; 5; 1; 255; 255; 2; 0; 4; 0] 2).
  simpl. lia.
Defined.

(** * Further properties of the reassembler and of the correlation *)

Section receive_cases.

Lemma parsePacket_Throw_inv buff n e :
  parsePacket buff n = Throw e → ∃ expected got, e = IncorrectChecksum expected got.
Proof.
  unfold parsePacket. destruct (strict_ne_mod _ _); [| discriminate].
  intros [= <-]. eauto.
Qed.

Lemma readUInt16LE_in_bounds buf (offset : nat) :
  (S offset < length buf)%nat → ∃ v, Buffer.readUInt16LE buf offset = Ok v.
Proof.
  intros Hlen. unfold Buffer.readUInt16LE.
  destruct (lookup_lt_is_Some_2 buf offset) as [a ->]; [lia |].
  destruct (lookup_lt_is_Some_2 buf (S offset)) as [b ->]; [lia |]. eauto.
Qed.

Lemma emit_subseteq pending messageID key :
  key ∈ emit pending messageID → key ∈ pending.
Proof. unfold emit. intros Hin. by apply list_elem_of_filter in Hin as [_ ?]. Qed.

(** The four ways a call of [receive] can go. *)
Lemma receive_cases cam data :
  let rb := receiveBuffer cam ++ data in
  (receive cam data
     = MkReceived (MkCamera (messageNumber cam) rb (awaiters cam)) None Idle)
  ∨ ∃ dataSize packet,
      Buffer.readUInt16LE rb 8 = Ok dataSize
      ∧ packet = take (14 + Z.to_nat dataSize) rb
      ∧ (14 + Z.to_nat dataSize ≤ length rb)%nat
      ∧ ((∃ expected got,
            parsePacket packet (Z.to_nat dataSize)
              = Throw (IncorrectChecksum expected got)
            ∧ receive cam data
              = MkReceived
                  (MkCamera (messageNumber cam)
                     (drop (14 + Z.to_nat dataSize) rb) (awaiters cam))
                  (Some packet) (Raise (IncorrectChecksum expected got)))
         ∨ (∃ parsed,
              parsePacket packet (Z.to_nat dataSize) = Ok parsed
              ∧ receive cam data
                = MkReceived
                    (MkCamera (messageNumber cam)
                       (drop (14 + Z.to_nat dataSize) rb)
                       (emit (awaiters cam) (messageID parsed)))
                    (Some packet) (Emit (messageID parsed) (response parsed)))).
Proof.
  intros rb. unfold receive. fold rb.
  destruct (decide (14 ≤ length rb)%nat) as [H14|H14]; [| by left].
  destruct (readUInt16LE_in_bounds rb 8) as [dataSize Hsize]; [lia |].
  rewrite Hsize.
  destruct (decide (14 + Z.to_nat dataSize ≤ length rb)%nat) as [Hfit|Hfit];
    [| by left].
  right. exists dataSize, (take (14 + Z.to_nat dataSize) rb).
  split_and!; [done | done | done |].
  unfold Buffer.subarray. rewrite drop_0, Nat.sub_0_r.
  destruct (parsePacket _ _) as [parsed|e] eqn:Hparse.
  - right. by exists parsed.
  - left. destruct (parsePacket_Throw_inv _ _ _ Hparse) as (ex & got & ->).
    by exists ex, got.
Qed.

End receive_cases.

(** X6. A call of [receive] never fails on its own reads: the only
    exception it lets out is the checksum error of [parsePacket]. It never
    changes the message counter and never adds a listener. *)
Theorem receive_raises_only_checksum_errors (cam : Camera) (data : list Z) :
  (∀ e, rcv_outcome (receive cam data) = Raise e →
     ∃ expected got, e = IncorrectChecksum expected got)
  ∧ messageNumber (rcv_camera (receive cam data)) = messageNumber cam
  ∧ (∀ key, key ∈ awaiters (rcv_camera (receive cam data)) →
       key ∈ awaiters cam)
  ∧ (rcv_outcome (receive cam data) = Idle →
       receiveBuffer (rcv_camera (receive cam data)) = receiveBuffer cam ++ data).
Proof.
  destruct (receive_cases cam data)
    as [->|(dataSize & packet & _ & _ & _ &
            [(ex & got & _ & ->)|(parsed & _ & ->)])];
    cbn [rcv_outcome rcv_camera messageNumber awaiters receiveBuffer];
    split_and!; try done.
  - intros e [= <-]. eauto.
  - intros key. apply emit_subseteq.
Qed.

(** X7. A complete packet with a wrong checksum is still cut off the
    buffer: [receive] throws the checksum error, keeps the bytes after the
    packet and leaves the pending listeners as they were. *)
Theorem receive_drops_packet_with_bad_checksum
  (cam : Camera) (data bad rest : list Z) (n : nat) :
  bytes bad →
  length bad = (14 + n)%nat →
  Buffer.readUInt16LE bad 8 = Ok (Z.of_nat n) →
  ¬ checksum_ok bad n →
  receiveBuffer cam ++ data = bad ++ rest →
  ∃ expected got,
    receive cam data
    = MkReceived (MkCamera (messageNumber cam) rest (awaiters cam))
                 (Some bad) (Raise (IncorrectChecksum expected got)).
Proof.
  intros Hb Hlen Hsize Hck Heq. unfold receive. rewrite Heq.
  rewrite decide_True by (rewrite length_app; lia).
  rewrite (readUInt16LE_app _ _ _ _ Hsize). rewrite Nat2Z.id.
  rewrite decide_True by (rewrite length_app; lia).
  unfold Buffer.subarray. rewrite drop_0, Nat.sub_0_r.
  rewrite <- Hlen. rewrite take_app_length, drop_app_length.
  destruct (lookup_lt_is_Some_2 bad (10 + n)) as [ck Hlook]; [lia |].
  rewrite (parsePacket_bytes bad n ck Hb Hlook).
  destruct (decide (ck = _)) as [->|Hne]; [by destruct Hck |]. eauto.
Qed.

Lemma receive_drops_packet_with_bad_checksum_witness :
  let bad := [3; 0; 1; 5; 5; 2; 0; 0; 2; 0; 3; 0; 99; 0; 0; 0] in
  ∃ expected got,
    receive new_Camera (bad ++ [3; 0; 1])
    = MkReceived (MkCamera 1 [3; 0; 1] []) (Some bad)
        (Raise (IncorrectChecksum expected got)).
Proof.
  intros bad.
  apply (receive_drops_packet_with_bad_checksum new_Camera
           (bad ++ [3; 0; 1]) bad [3; 0; 1] 2).
  - repeat constructor; done.
  - reflexivity.
  - reflexivity.
  - unfold checksum_ok. simpl. discriminate.
  - reflexivity.
Defined.

Section stream_lemmas.

Lemma framed_length packet : framed packet → (14 ≤ length packet)%nat.
Proof. intros [(_ & Hlen & _) _]. lia. Qed.

(** One [receive] on a prefix of a stream of framed packets: it waits, or it
    takes the first packet of the stream. *)
Lemma receive_stream_step cam data tail ps :
  Forall framed ps →
  (receiveBuffer cam ++ data) ++ tail = concat ps →
  (receive cam data
     = MkReceived (MkCamera (messageNumber cam) (receiveBuffer cam ++ data)
                            (awaiters cam)) None Idle)
  ∨ ∃ p ps' rest,
      ps = p :: ps' ∧ receiveBuffer cam ++ data = p ++ rest
      ∧ receive cam data
        = MkReceived (MkCamera (messageNumber cam) rest
                               (emit (awaiters cam) (p !! 5%nat)))
                     (Some p) (decoded_event p).
Proof.
  intros Hps Hcat. set (rb := receiveBuffer cam ++ data) in *.
  destruct (decide (length rb < 14)%nat) as [Hshort|Hlong];
    [left; by apply receive_short |].
  destruct ps as [|p ps'].
  { apply (f_equal length) in Hcat. rewrite length_app in Hcat.
    simpl in Hcat. lia. }
  inversion_clear Hps as [|? ? Hp Hps'].
  pose proof (framed_length p Hp) as Hplen.
  pose proof Hp as [(_ & Hlen & _) Hsize].
  simpl in Hcat.
  destruct (decide (length rb < length p)%nat) as [Hpart|Hfull].
  - left. apply (receive_incomplete _ _ (Z.of_nat (length p - 14)));
      [| rewrite Nat2Z.id; fold rb; lia].
    fold rb.
    apply app_eq_inv in Hcat as [(k & Hrb & _)|(k & Hpk & _)].
    + apply (f_equal length) in Hrb. rewrite length_app in Hrb. lia.
    + assert (Hsize' : Buffer.readUInt16LE (rb ++ k) 8
                       = Ok (Z.of_nat (length p - 14)))
        by (rewrite <- Hpk; exact Hsize).
      apply (readUInt16LE_take _ 8 (length rb)) in Hsize'; [| lia].
      by rewrite take_app_length in Hsize'.
  - right.
    apply app_eq_inv in Hcat as [(k & Hrb & _)|(k & Hpk & _)].
    + exists p, ps', k. split; [done |]. split; [done |].
      by apply (receive_framed cam data p (length p - 14) k).
    + assert (k = []) as ->.
      { apply (f_equal length) in Hpk. rewrite length_app in Hpk.
        apply length_zero_iff_nil. lia. }
      rewrite app_nil_r in Hpk. exists p, ps', [].
      split; [done |]. split; [by rewrite app_nil_r |].
      apply (receive_framed cam data p (length p - 14) []); [done |].
      by rewrite app_nil_r.
Qed.

Lemma receive_all_stream chunks : ∀ cam ps,
  Forall framed ps →
  receiveBuffer cam ++ concat chunks = concat ps →
  ∃ k,
    slices (receive_all cam chunks).2 = take k ps
    ∧ events (receive_all cam chunks).2 = decoded_event <$> take k ps
    ∧ receiveBuffer (receive_all cam chunks).1 = concat (drop k ps).
Proof.
  induction chunks as [|data chunks IH]; intros cam ps Hps Hcat.
  { exists 0%nat. simpl in *. rewrite app_nil_r in Hcat. by rewrite drop_0. }
  simpl in Hcat. rewrite app_assoc in Hcat.
  destruct (receive_stream_step cam data (concat chunks) ps Hps Hcat)
    as [Hr|(p & ps' & rest & -> & Hrb & Hr)].
  - destruct (IH (MkCamera (messageNumber cam) (receiveBuffer cam ++ data)
                    (awaiters cam)) ps Hps Hcat) as (k & Hs & He & Hb).
    exists k. cbn [receive_all]. rewrite Hr. cbn [rcv_camera].
    destruct (receive_all _ chunks) as [cam' rs]. by simpl in *.
  - inversion_clear Hps as [|? ? Hp Hps'].
    rewrite Hrb in Hcat. simpl in Hcat. rewrite <- app_assoc in Hcat.
    apply app_inv_head in Hcat.
    destruct (IH (MkCamera (messageNumber cam) rest
                    (emit (awaiters cam) (p !! 5%nat))) ps' Hps' Hcat)
      as (k & Hs & He & Hb).
    exists (S k). cbn [receive_all]. rewrite Hr. cbn [rcv_camera].
    destruct (receive_all _ chunks) as [cam' rs]. simpl in *.
    unfold slices, events in *. simpl. unfold decoded_event at 1, decoded.
    by rewrite Hs, He, Hb.
Qed.

End stream_lemmas.

(** X8. A stream made of valid packets, cut into chunks in any way and fed
    to a fresh camera: the packets cut off are a prefix of the packets of the
    stream, in order and unchanged, each one is emitted as its decoded event,
    no checksum error is raised, and the bytes of the other packets are
    still in the buffer. *)
Theorem receive_stream_in_order (ps : list (list Z)) (chunks : list (list Z)) :
  Forall framed ps →
  concat chunks = concat ps →
  ∃ k,
    slices (receive_all new_Camera chunks).2 = take k ps
    ∧ events (receive_all new_Camera chunks).2 = decoded_event <$> take k ps
    ∧ receiveBuffer (receive_all new_Camera chunks).1 = concat (drop k ps).
Proof.
  intros Hps Hcat. by apply (receive_all_stream chunks new_Camera ps).
Qed.

Lemma receive_stream_in_order_witness :
  let p1 := [3; 0; 1; 1; 2; 1; 0; 0; 2; 0; 1; 0; 11; 0; 0; 0] in
  let p2 := [3; 0; 1; 5; 5; 2; 0; 0; 2; 0; 3; 0; 21; 0; 0; 0] in
  let chunks := [take 20 (p1 ++ p2); drop 20 (p1 ++ p2)] in
  Forall framed [p1; p2]
  ∧ ∃ k,
      slices (receive_all new_Camera chunks).2 = take k [p1; p2]
      ∧ events (receive_all new_Camera chunks).2
        = decoded_event <$> take k [p1; p2]
      ∧ receiveBuffer (receive_all new_Camera chunks).1
        = concat (drop k [p1; p2]).
Proof.
  intros p1 p2 chunks.
  assert (Hps : Forall framed [p1; p2]).
  { repeat (apply Forall_cons_2; [unfold framed; framed_by_computation |]).
    apply Forall_nil_2. }
  split; [exact Hps |].
  apply (receive_stream_in_order [p1; p2] chunks Hps). reflexivity.
Defined.

(** X9. Packets that are left in the buffer are not lost: when the buffer
    holds valid packets back to back, each further call of [receive], even
    with an empty chunk, emits the next one, in order, until the buffer is
    empty. *)
Theorem receive_drains_buffered_packets (ps : list (list Z)) (cam : Camera) :
  Forall framed ps →
  receiveBuffer cam = concat ps →
  let chunks := replicate (length ps) [] in
  slices (receive_all cam chunks).2 = ps
  ∧ events (receive_all cam chunks).2 = decoded_event <$> ps
  ∧ receiveBuffer (receive_all cam chunks).1 = [].
Proof.
  revert cam. induction ps as [|p ps IH]; intros cam Hps Hbuf chunks.
  { by simpl. }
  inversion_clear Hps as [|? ? Hp Hps'].
  assert (Hr := receive_framed cam [] p (length p - 14) (concat ps) Hp).
  rewrite app_nil_r in Hr. specialize (Hr Hbuf).
  subst chunks. cbn [length replicate receive_all]. rewrite Hr.
  cbn [rcv_camera].
  destruct (IH (MkCamera (messageNumber cam) (concat ps)
                  (emit (awaiters cam) (p !! 5%nat))) Hps' eq_refl)
    as (Hs & He & Hb).
  destruct (receive_all _ (replicate (length ps) [])) as [cam' rs].
  simpl in *. unfold slices, events in *. simpl.
  unfold decoded_event at 1, decoded. by rewrite Hs, He, Hb.
Qed.

Lemma receive_drains_buffered_packets_witness :
  let p1 := [3; 0; 1; 1; 2; 1; 0; 0; 2; 0; 1; 0; 11; 0; 0; 0] in
  let p2 := [3; 0; 1; 5; 5; 2; 0; 0; 2; 0; 3; 0; 21; 0; 0; 0] in
  Forall framed [p1; p2]
  ∧ events (receive_all (MkCamera 3 (p1 ++ p2) [1; 2]) [[]; []]).2
    = [Emit (Some 1) (Some [1; 0]); Emit (Some 2) (Some [3; 0])].
Proof.
  intros p1 p2.
  assert (Hps : Forall framed [p1; p2]).
  { repeat (apply Forall_cons_2; [unfold framed; framed_by_computation |]).
    apply Forall_nil_2. }
  split; [exact Hps |].
  destruct (receive_drains_buffered_packets [p1; p2]
              (MkCamera 3 (p1 ++ p2) [1; 2]) Hps eq_refl) as (_ & He & _).
  exact He.
Defined.

(** X10. While the counter is below 256 the correlation works: the packet
    of a [send] carries the number its listener waits for, and a valid
    response packet with that number in byte 5, received on an empty buffer,
    is emitted under that number and removes that listener, keeping the
    listeners of other numbers. *)
Theorem send_then_receive_resolves_listener
  (cam : Camera) (command : Z) (args : list Z) (s : Sent)
  (reply : list Z) (n : nat) :
  0 ≤ messageNumber cam < 256 →
  receiveBuffer cam = [] →
  send cam command args = Ok s →
  framed_packet reply n →
  reply !! 5%nat = Some (sent_key s) →
  sent_packet s !! 5%nat = Some (sent_key s)
  ∧ sent_key s ∈ awaiters (sent_camera s)
  ∧ rcv_outcome (receive (sent_camera s) reply) = decoded reply n
  ∧ receiveBuffer (rcv_camera (receive (sent_camera s) reply)) = []
  ∧ sent_key s ∉ awaiters (rcv_camera (receive (sent_camera s) reply))
  ∧ ∀ key, key ≠ sent_key s → key ∈ awaiters cam →
      key ∈ awaiters (rcv_camera (receive (sent_camera s) reply)).
Proof.
  intros Hmn Hbuf Hsend Hreply H5.
  destruct (send_key_and_sequence_byte cam command args s Hsend)
    as (Hkey & Hseq & _ & Haw).
  assert (Hsbuf : receiveBuffer (sent_camera s) = []).
  { unfold send in Hsend.
    destruct (match args with [] => _ | _ => _ end); [| discriminate].
    cbv beta iota zeta delta [rbind] in Hsend. injection Hsend as <-. done. }
  assert (Hr := receive_framed (sent_camera s) reply reply n [] Hreply).
  rewrite Hsbuf, app_nil_r in Hr. specialize (Hr eq_refl).
  rewrite Hr. cbn [rcv_outcome rcv_camera receiveBuffer awaiters].
  rewrite Z.mod_small in Hseq by done. rewrite <- Hkey in Hseq.
  split_and!; try done.
  - rewrite Haw, Hkey. apply elem_of_app. right. by left.
  - rewrite H5. unfold emit. intros Hin.
    apply list_elem_of_filter in Hin as [Hne _]. by destruct Hne.
  - intros key Hne Hin. rewrite H5, Haw. unfold emit.
    apply list_elem_of_filter. split; [congruence |].
    apply elem_of_app. by left.
Qed.

Lemma send_then_receive_resolves_listener_witness :
  let cam := MkCamera 7 [] [5] in
  let reply := [3; 0; 1; 1; 2; 7; 0; 0; 2; 0; 1; 0; 17; 0; 0; 0] in
  ∃ s, send cam 1 [2] = Ok s
       ∧ rcv_outcome (receive (sent_camera s) reply) = Emit (Some 7) (Some [1; 0])
       ∧ awaiters (rcv_camera (receive (sent_camera s) reply)) = [5].
Proof.
  intros cam reply.
  destruct (send cam 1 [2]) as [s|e] eqn:Hs; [| vm_compute in Hs; discriminate Hs].
  exists s. split; [reflexivity |].
  assert (Hf : framed_packet reply 2) by framed_by_computation.
  assert (H5 : reply !! 5%nat = Some (sent_key s)).
  { vm_compute in Hs. injection Hs as <-. reflexivity. }
  destruct (send_then_receive_resolves_listener cam 1 [2] s reply 2
              ltac:(simpl; lia) eq_refl Hs Hf H5) as (_ & _ & Hout & _).
  split; [exact Hout |].
  vm_compute in Hs. injection Hs as <-. reflexivity.
Defined.

Lemma receive_raises_only_checksum_errors_witness :
  let bad := [3; 0; 1; 5; 5; 2; 0; 0; 2; 0; 3; 0; 99; 0; 0; 0] in
  rcv_outcome (receive new_Camera bad)
    = Raise (IncorrectChecksum (Some 21) (Some 99))
  ∧ ∃ expected got,
      IncorrectChecksum (Some 21) (Some 99) = IncorrectChecksum expected got.
Proof.
  intros bad.
  assert (Hout : rcv_outcome (receive new_Camera bad)
                 = Raise (IncorrectChecksum (Some 21) (Some 99)))
    by reflexivity.
  split; [exact Hout |].
  destruct (receive_raises_only_checksum_errors new_Camera bad) as (Hraise & _).
  exact (Hraise _ Hout).
Defined.

(** * Further properties of the option maps and of the commands *)

Section invertMap_lemmas.

Lemma get_Some_keys (obj : object) key v : get obj key = Some v → key ∈ keys obj.
Proof.
  intros Hget. apply get_elem_of in Hget. unfold keys.
  by apply (list_elem_of_fmap_2 fst) in Hget.
Qed.

(** The loop of [invertMap] over an object whose values are distinct. *)
Lemma invert_loop_lookup (obj : object) (names : list string) :
  (∀ k1 k2 v, get obj k1 = Some v → get obj k2 = Some v → k1 = k2) →
  ∀ (inverted : gmap Z string) v k,
    foldl (λ inverted key,
             match get obj key with
             | Some v => <[v := key]> inverted
             | None => inverted
             end) inverted names !! v = Some k
    ↔ (k ∈ names ∧ get obj k = Some v)
      ∨ ((∀ k', k' ∈ names → get obj k' ≠ Some v) ∧ inverted !! v = Some k).
Proof.
  intros Hinj. induction names as [|a names IH]; intros inverted v k.
  { simpl. split; [intros H; right; split; [intros k' Hk'; by apply elem_of_nil in Hk' | done] |].
    intros [[Hin _]|[_ H]]; [by apply elem_of_nil in Hin | done]. }
  cbn [foldl]. rewrite IH. clear IH.
  destruct (get obj a) as [w|] eqn:Ha.
  - destruct (decide (w = v)) as [->|Hwv].
    + rewrite lookup_insert_eq. split.
      * intros [[Hin Hk]|[Hall [= <-]]].
        -- left. split; [by right | done].
        -- left. split; [by left | done].
      * intros [[Hin Hk]|[Hall _]].
        -- destruct (decide (k ∈ names)) as [Hkn|Hkn]; [by left |].
           apply elem_of_cons in Hin as [->|Hin]; [| done].
           right. split; [| done]. intros k' Hk' Hget.
           apply Hkn. by rewrite (Hinj a k' v Ha Hget).
        -- exfalso. apply (Hall a); [by left | done].
    + rewrite lookup_insert_ne by done. split.
      * intros [[Hin Hk]|[Hall Hlook]].
        -- left. split; [by right | done].
        -- right. split; [| done]. intros k' Hk'.
           apply elem_of_cons in Hk' as [->|Hk']; [congruence | by apply Hall].
      * intros [[Hin Hk]|[Hall Hlook]].
        -- apply elem_of_cons in Hin as [->|Hin]; [congruence | by left].
        -- right. split; [| done]. intros k' Hk'. apply Hall. by right.
  - split.
    + intros [[Hin Hk]|[Hall Hlook]].
      * left. split; [by right | done].
      * right. split; [| done]. intros k' Hk'.
        apply elem_of_cons in Hk' as [->|Hk']; [congruence | by apply Hall].
    + intros [[Hin Hk]|[Hall Hlook]].
      * apply elem_of_cons in Hin as [->|Hin]; [congruence | by left].
      * right. split; [| done]. intros k' Hk'. apply Hall. by right.
Qed.

(** [invertMap] inverts an object whose values are distinct. *)
Lemma invertMap_lookup (obj : object) v k :
  (∀ k1 k2 v, get obj k1 = Some v → get obj k2 = Some v → k1 = k2) →
  invertMap obj !! v = Some k ↔ get obj k = Some v.
Proof.
  intros Hinj. unfold invertMap. rewrite (invert_loop_lookup obj _ Hinj).
  rewrite lookup_empty. split.
  - intros [[_ Hget]|[_ [=]]]. done.
  - intros Hget. left. split; [by eapply get_Some_keys | done].
Qed.

Lemma ITT_MODES_distinct k1 k2 v :
  get ITT_MODES k1 = Some v → get ITT_MODES k2 = Some v → k1 = k2.
Proof.
  unfold ITT_MODES, get. intros H1 H2.
  repeat case_decide; simplify_eq; done.
Qed.

Lemma NUC_MODES_distinct k1 k2 v :
  get NUC_MODES k1 = Some v → get NUC_MODES k2 = Some v → k1 = k2.
Proof.
  unfold NUC_MODES, get. intros H1 H2.
  repeat case_decide; simplify_eq; done.
Qed.

Lemma LUT_MODES_distinct k1 k2 v :
  get LUT_MODES k1 = Some v → get LUT_MODES k2 = Some v → k1 = k2.
Proof.
  unfold LUT_MODES, get. intros H1 H2.
  repeat case_decide; simplify_eq; done.
Qed.

Lemma inverted_maps_lookup MAP MODES v name :
  (MAP, MODES) ∈ inverted_maps →
  MAP !! v = Some name ↔ get MODES name = Some v.
Proof.
  intros Hin. unfold inverted_maps in Hin. case_table Hin.
  - apply invertMap_lookup, ITT_MODES_distinct.
  - apply invertMap_lookup, NUC_MODES_distinct.
  - apply invertMap_lookup, LUT_MODES_distinct.
Qed.

Lemma readUInt16LE_le16 v extra :
  is_word v → Buffer.readUInt16LE (le16 v ++ extra) 0 = Ok v.
Proof.
  unfold is_word. intros Hv. unfold Buffer.readUInt16LE, le16. simpl.
  f_equal. pose proof (Z.div_mod v 256 ltac:(lia)). lia.
Qed.

Lemma readUInt16LE_Throw_inv buf offset e :
  Buffer.readUInt16LE buf offset = Throw e → e = RangeError.
Proof.
  unfold Buffer.readUInt16LE.
  destruct (buf !! offset); [destruct (buf !! S offset) |]; congruence.
Qed.

End invertMap_lemmas.

(** X11. [ITT_MAP], [NUC_MAP] and [LUT_MAP] are the inverses of their option
    maps: a wire value is mapped to a name exactly when the option map gives
    that name this value. *)
Theorem invertMap_inverts_option_map
  (MAP : gmap Z string) (MODES : object) (v : Z) (name : string) :
  (MAP, MODES) ∈ inverted_maps →
  (MAP !! v = Some name ↔ get MODES name = Some v)
  ∧ (MAP !! v = None ↔ ∀ name', get MODES name' ≠ Some v).
Proof.
  intros Hin. split; [by apply inverted_maps_lookup |]. split.
  - intros Hnone name' Hget.
    apply (inverted_maps_lookup MAP MODES v name' Hin) in Hget. congruence.
  - intros Hno. destruct (MAP !! v) as [name'|] eqn:Hlook; [| done].
    apply (inverted_maps_lookup MAP MODES v name' Hin) in Hlook.
    by destruct (Hno name').
Qed.

Lemma invertMap_inverts_option_map_witness :
  (NUC_MAP, NUC_MODES) ∈ inverted_maps
  ∧ (NUC_MAP !! 4 = Some "hot"%string ↔ get NUC_MODES "hot" = Some 4).
Proof.
  assert (Hin : (NUC_MAP, NUC_MODES) ∈ inverted_maps) by (right; left; done).
  split; [exact Hin |].
  exact (proj1 (invertMap_inverts_option_map NUC_MAP NUC_MODES 4 "hot" Hin)).
Defined.

(** X12. Setter and getter agree on the wire: for ITT, LUT and NUC and every
    valid mode name, the setter sends exactly one request whose single data
    word is the mode's value, and the getter that receives this word as
    little-endian bytes (followed by anything) returns the same name. *)
Theorem setter_word_read_back_by_getter
  (setter : string → proc (option (list Z))) (getter : proc (option string))
  (MODES : object) (mode : string) :
  (setter, getter, MODES) ∈ setter_getter_pairs →
  mode ∈ keys MODES →
  ∃ command subCommand v,
    setter mode = Await command [subCommand; v] Return
    ∧ get MODES mode = Some v
    ∧ is_word v
    ∧ ∀ extra, resume getter (Some (le16 v ++ extra)) = Return (Some mode).
Proof.
  intros Hpair Hmode.
  destruct (validate_valid mode MODES Hmode) as (v & Hget & Hin & Hval).
  assert (Hword : is_word v ∧ ∃ MAP, (MAP, MODES) ∈ inverted_maps
            ∧ ∀ response, resume getter response = mode_of MAP response).
  { unfold setter_getter_pairs in Hpair.
    repeat (apply elem_of_cons in Hpair as [[= -> -> ->]|Hpair]);
      try (by apply elem_of_nil in Hpair).
    - split; [| exists ITT_MAP; split; [by left | done]].
      unfold ITT_MODES in Hin.
      repeat (apply elem_of_cons in Hin as [[= _ ->]|Hin]);
        try (by apply elem_of_nil in Hin); unfold is_word; lia.
    - split; [| exists LUT_MAP; split; [by right; right; left | done]].
      unfold LUT_MODES in Hin.
      repeat (apply elem_of_cons in Hin as [[= _ ->]|Hin]);
        try (by apply elem_of_nil in Hin); unfold is_word; lia.
    - split; [| exists NUC_MAP; split; [by right; left | done]].
      unfold NUC_MODES in Hin.
      repeat (apply elem_of_cons in Hin as [[= _ ->]|Hin]);
        try (by apply elem_of_nil in Hin); unfold is_word; lia. }
  destruct Hword as (Hword & MAP & HMAP & Hresume).
  assert (Hset : ∃ command subCommand,
            setter mode = Await command [subCommand; v] Return).
  { unfold setter_getter_pairs in Hpair.
    repeat (apply elem_of_cons in Hpair as [[= -> -> ->]|Hpair]);
      try (by apply elem_of_nil in Hpair);
      unfold setITT, setLUT, setNUC, send_mode; rewrite Hval, Hget;
      eexists _, _; reflexivity. }
  destruct Hset as (command & subCommand & Hset).
  exists command, subCommand, v. split_and!; try done.
  intros extra. rewrite Hresume. unfold mode_of.
  rewrite readUInt16LE_le16 by done. f_equal.
  by apply (inverted_maps_lookup MAP MODES v mode HMAP).
Qed.

Lemma setter_word_read_back_by_getter_witness :
  (setNUC, getNUC, NUC_MODES) ∈ setter_getter_pairs
  ∧ "hot"%string ∈ keys NUC_MODES
  ∧ ∃ command subCommand v,
      setNUC "hot" = Await command [subCommand; v] Return
      ∧ get NUC_MODES "hot" = Some v
      ∧ is_word v
      ∧ ∀ extra, resume getNUC (Some (le16 v ++ extra)) = Return (Some "hot"%string).
Proof.
  assert (Hp : (setNUC, getNUC, NUC_MODES) ∈ setter_getter_pairs)
    by (right; right; left; done).
  assert (Hk : "hot"%string ∈ keys NUC_MODES)
    by (apply list_elem_of_In; simpl; tauto).
  split; [exact Hp |]. split; [exact Hk |].
  exact (setter_word_read_back_by_getter setNUC getNUC NUC_MODES "hot" Hp Hk).
Defined.

(** X13. A mode getter whose response has no payload rejects with a type
    error (a method is called on [undefined]); with a payload of fewer than
    two bytes it rejects with the range error of [readUInt16LE]; otherwise
    only the first two bytes of the payload matter. *)
Theorem getter_payload_errors
  (getter : proc (option string)) (MODES : object) :
  (getter, MODES) ∈ mode_getters →
  resume getter None = Reject TypeError
  ∧ (∀ payload, (length payload < 2)%nat →
       resume getter (Some payload) = Reject RangeError)
  ∧ (∀ b0 b1 extra,
       resume getter (Some (b0 :: b1 :: extra)) = resume getter (Some [b0; b1])).
Proof.
  intros Hgetter. unfold mode_getters in Hgetter.
  case_table Hgetter; cbn [resume getITT getLUT getNUC send_fn];
    (split_and!; [done | | done]); intros payload Hlen;
    destruct payload as [|b0 [|b1 payload]]; simpl in Hlen; try lia; done.
Qed.

Lemma getter_payload_errors_witness :
  (getLUT, LUT_MODES) ∈ mode_getters
  ∧ resume getLUT None = Reject TypeError
  ∧ resume getLUT (Some [2]) = Reject RangeError.
Proof.
  assert (Hg : (getLUT, LUT_MODES) ∈ mode_getters) by (right; left; done).
  destruct (getter_payload_errors getLUT LUT_MODES Hg) as (Hnone & Hshort & _).
  split; [exact Hg |]. split; [exact Hnone |].
  apply Hshort. simpl. lia.
Defined.

Section status_lemmas.

Lemma le32_bytes w : 0 ≤ w < 2 ^ 32 → bytes (le32 w).
Proof.
  intros Hw. unfold le32, bytes, is_byte.
  repeat constructor; try apply Z.mod_pos_bound; try lia.
  - apply Z.div_pos; lia.
  - apply Z.div_lt_upper_bound; lia.
Qed.

Lemma le32_value w :
  0 ≤ w < 2 ^ 32 →
  w `mod` 256 + (w `div` 256) `mod` 256 * 2 ^ 8
  + (w `div` 65536) `mod` 256 * 2 ^ 16 + w `div` 16777216 * 2 ^ 24 = w.
Proof.
  intros Hw.
  pose proof (Z.div_mod w 256 ltac:(lia)) as H0.
  pose proof (Z.div_mod (w `div` 256) 256 ltac:(lia)) as H1.
  pose proof (Z.div_mod (w `div` 65536) 256 ltac:(lia)) as H2.
  replace ((w `div` 256) `div` 256) with (w `div` 65536) in H1
    by (rewrite Z.div_div by lia; reflexivity).
  replace ((w `div` 65536) `div` 256) with (w `div` 16777216) in H2
    by (rewrite Z.div_div by lia; reflexivity).
  lia.
Qed.

Lemma readUInt32LE_Throw_inv buf offset e :
  Buffer.readUInt32LE buf offset = Throw e → e = RangeError.
Proof.
  unfold Buffer.readUInt32LE.
  destruct (buf !! offset); [destruct (buf !! (offset + 3)%nat) |]; congruence.
Qed.

End status_lemmas.

(** X14. [getStatus] reads two 16-bit counters and one 32-bit time, all
    little-endian, from the first eight bytes of the payload and ignores the
    rest; with fewer than eight bytes it rejects with the range error, and
    with no payload with a type error. *)
Theorem getStatus_decodes_little_endian_fields (a b c : Z) (extra : list Z) :
  is_word a → is_word b → 0 ≤ c < 2 ^ 32 →
  resume getStatus (Some (le16 a ++ le16 b ++ le32 c ++ extra))
    = Return (MkStatus a b c)
  ∧ resume getStatus None = Reject TypeError
  ∧ ∀ payload, (length payload < 8)%nat →
      resume getStatus (Some payload) = Reject RangeError.
Proof.
  intros Ha Hb Hc. split_and!.
  - cbn [resume getStatus send_fn].
    rewrite (readUInt16LE_le16 a) by done.
    assert (H2 : Buffer.readUInt16LE (le16 a ++ le16 b ++ le32 c ++ extra) 2
                 = Ok b).
    { unfold Buffer.readUInt16LE, le16. simpl. f_equal. unfold is_word in Hb.
      pose proof (Z.div_mod b 256 ltac:(lia)). lia. }
    rewrite H2.
    assert (H4 : Buffer.readUInt32LE (le16 a ++ le16 b ++ le32 c ++ extra) 4
                 = Ok c).
    { unfold Buffer.readUInt32LE. simpl. f_equal. by apply le32_value. }
    by rewrite H4.
  - reflexivity.
  - intros payload Hlen. cbn [resume getStatus send_fn].
    destruct (Buffer.readUInt16LE payload 0) as [v0|e0] eqn:H0;
      [| by rewrite (readUInt16LE_Throw_inv _ _ _ H0)].
    destruct (Buffer.readUInt16LE payload 2) as [v2|e2] eqn:H2;
      [| by rewrite (readUInt16LE_Throw_inv _ _ _ H2)].
    unfold Buffer.readUInt32LE.
    rewrite (lookup_ge_None_2 payload (4 + 3)) by lia.
    by destruct (payload !! 4%nat).
Qed.

Lemma getStatus_decodes_little_endian_fields_witness :
  resume getStatus (Some [230; 86; 99; 87; 34; 56; 87; 85])
  = Return (MkStatus 22246 22371 1431779362).
Proof.
  destruct (getStatus_decodes_little_endian_fields 22246 22371 1431779362 [])
    as (Hok & _); unfold is_word; try lia.
  exact Hok.
Defined.

(** X15. [getAGC] answers [false] exactly when the first two payload bytes
    are both zero, whatever follows them; it rejects like the mode getters
    when the payload is missing or shorter than two bytes. *)
Theorem getAGC_true_iff_nonzero_word (b0 b1 : Z) (extra : list Z) :
  is_byte b0 → is_byte b1 →
  (∃ enabled, resume getAGC (Some (b0 :: b1 :: extra)) = Return enabled
              ∧ (enabled = false ↔ b0 = 0 ∧ b1 = 0))
  ∧ resume getAGC None = Reject TypeError
  ∧ resume getAGC (Some [b0]) = Reject RangeError.
Proof.
  unfold is_byte. intros H0 H1. split_and!; [| done | done].
  cbn [resume getAGC send_fn]. unfold Buffer.readUInt16LE. simpl.
  eexists. split; [reflexivity |].
  rewrite negb_false_iff, Z.eqb_eq. lia.
Qed.

Lemma getAGC_true_iff_nonzero_word_witness :
  resume getAGC (Some [0; 1]) = Return true
  ∧ resume getAGC (Some [0; 0; 9]) = Return false.
Proof.
  destruct (getAGC_true_iff_nonzero_word 0 1 [])
    as ((e1 & Hr1 & Hi1) & _); unfold is_byte; try lia.
  destruct (getAGC_true_iff_nonzero_word 0 0 [9])
    as ((e2 & Hr2 & Hi2) & _); unfold is_byte; try lia.
  split.
  - rewrite Hr1. f_equal. destruct e1; [done |].
    destruct (proj1 Hi1 eq_refl) as [_ Hne]. discriminate Hne.
  - rewrite Hr2. f_equal. by apply Hi2.
Defined.

Section send_success.

Lemma send_words_Ok cam command subCommand data :
  Forall is_word data →
  Z.of_nat (length data) ≤ 32767 →
  ∃ s, send cam command (subCommand :: data) = Ok s
       ∧ createPacket (messageNumber cam) command subCommand data
         = Ok (sent_packet s).
Proof.
  intros Hdata Hlen. unfold send.
  destruct (createPacket_framed (messageNumber cam) command subCommand data
              Hdata Hlen) as (packet & Hp & _).
  rewrite Hp. cbv beta iota zeta delta [rbind]. eauto.
Qed.


End send_success.


Section setter_requests.

Lemma sendable_words command subCommand data :
  Forall is_word data → Z.of_nat (length data) ≤ 32767 →
  sendable command (subCommand :: data).
Proof.
  intros Hdata Hlen cam.
  destruct (send_words_Ok cam command subCommand data Hdata Hlen) as (s & Hs & _).
  eauto.
Qed.

Lemma validate_Ok_inv mode options v :
  validate mode options = Ok v → mode ∈ keys options.
Proof.
  unfold validate. destruct (bool_decide (mode ∈ keys options)) eqn:Hin;
    [| discriminate].
  intros _. by apply bool_decide_eq_true in Hin.
Qed.

Lemma send_mode_sendable fn MODES mode :
  (∀ v, get MODES mode = Some v → is_word v) →
  all_requests sendable (send_mode fn MODES mode).
Proof.
  intros Hword. unfold send_mode.
  destruct (get MODES mode) as [v|] eqn:Hget; [| done].
  cbn [send_fn all_requests]. split; [| done].
  apply sendable_words; [| simpl; lia].
  constructor; [by apply Hword | constructor].
Qed.

Lemma ITT_MODES_words mode v : get ITT_MODES mode = Some v → is_word v.
Proof.
  unfold ITT_MODES, get, is_word. intros H.
  repeat case_decide; simplify_eq; lia.
Qed.

Lemma LUT_MODES_words mode v : get LUT_MODES mode = Some v → is_word v.
Proof.
  unfold LUT_MODES, get, is_word. intros H.
  repeat case_decide; simplify_eq; lia.
Qed.

Lemma NUC_MODES_words mode v : get NUC_MODES mode = Some v → is_word v.
Proof.
  unfold NUC_MODES, get, is_word. intros H.
  repeat case_decide; simplify_eq; lia.
Qed.

Lemma AGC_MODES_words mode v :
  mode ≠ "off"%string → get AGC_MODES mode = Some v → is_word v.
Proof.
  unfold AGC_MODES, get, is_word. intros Hoff H.
  repeat case_decide; simplify_eq; lia.
Qed.

End setter_requests.

(** X17. No mode setter ever issues a request that [send] refuses: for every
    mode name, valid or not, each request of [setAGC], [setITT], [setLUT]
    and [setNUC] is accepted by [send] on every camera. In particular
    [setAGC] never puts the value -1 of its mode off on the wire. *)
Theorem setters_issue_only_sendable_requests
  (setter : string → proc (option (list Z))) (MODES : object) (mode : string) :
  (setter, MODES) ∈ mode_setters →
  all_requests sendable (setter mode).
Proof.
  intros Hsetter. unfold mode_setters in Hsetter. case_table Hsetter.
  - unfold setAGC. destruct (validate mode AGC_MODES); [| done].
    destruct (decide (mode = "off"%string)) as [Hoff|Hoff].
    + cbn [send_fn all_requests]. split; [| done].
      apply sendable_words; [constructor | simpl; lia].
    + cbn [send_fn all_requests]. split.
      * apply sendable_words; [constructor | simpl; lia].
      * intros _. apply send_mode_sendable. intros v. by apply AGC_MODES_words.
  - unfold setITT. destruct (validate mode ITT_MODES); [| done].
    apply send_mode_sendable. apply ITT_MODES_words.
  - unfold setLUT. destruct (validate mode LUT_MODES); [| done].
    apply send_mode_sendable. apply LUT_MODES_words.
  - unfold setNUC. destruct (validate mode NUC_MODES); [| done].
    apply send_mode_sendable. apply NUC_MODES_words.
Qed.

Lemma setters_issue_only_sendable_requests_witness :
  (setAGC, AGC_MODES) ∈ mode_setters
  ∧ all_requests sendable (setAGC "off")
  ∧ all_requests sendable (setAGC "horizon").
Proof.
  assert (Hs : (setAGC, AGC_MODES) ∈ mode_setters) by (left; done).
  split; [exact Hs |]. split.
  - exact (setters_issue_only_sendable_requests setAGC AGC_MODES "off" Hs).
  - exact (setters_issue_only_sendable_requests setAGC AGC_MODES "horizon" Hs).
Defined.

Section mock_lemmas.

Lemma foldl_add_sumZ (l : list Z) acc : foldl Z.add acc l = acc + sumZ l.
Proof.
  revert acc. induction l as [|x l IH]; intros acc; simpl; [lia |].
  rewrite IH. lia.
Qed.

(** The bytes written by the mock camera form one valid packet. *)
Lemma respond_framed functionCode subFunctionCode messageID response :
  is_byte functionCode → is_byte subFunctionCode → is_byte messageID →
  bytes response → (length response < 256)%nat →
  framed_packet (concat (respond functionCode subFunctionCode messageID response))
                (length response)
  ∧ concat (respond functionCode subFunctionCode messageID response) !! 5%nat
    = Some messageID
  ∧ take (length response)
      (drop 10 (concat (respond functionCode subFunctionCode messageID response)))
    = response.
Proof.
  unfold is_byte. intros Hf Hs Hm Hr Hlen.
  assert (Hsum : 0 ≤ sumZ response) by by apply sumZ_nonneg.
  unfold respond. cbn [fmap list_fmap concat app].
  unfold Buffer.toUint8.
  rewrite !(Z.mod_small functionCode), !(Z.mod_small subFunctionCode),
    !(Z.mod_small messageID), !(Z.mod_small (Z.of_nat (length response)))
    by lia.
  change (3 `mod` 256) with 3. change (0 `mod` 256) with 0.
  change (1 `mod` 256) with 1.
  rewrite foldl_add_sumZ, Z.add_0_l.
  rewrite Z.rem_mod_nonneg by lia. rewrite Z.mod_mod by lia.
  set (n := length response).
  set (ck := (3 + 1 + functionCode + subFunctionCode + messageID + Z.of_nat n
              + sumZ response) `mod` 256).
  split_and!.
  - split; [split_and! |].
    + unfold bytes, is_byte.
      repeat (apply Forall_cons_2; [lia |]).
      apply Forall_app. split; [done |].
      repeat (apply Forall_cons_2;
              [first [lia | apply Z.mod_pos_bound; lia] |]).
      apply Forall_nil_2.
    + simpl. rewrite length_app. simpl. fold n. lia.
    + unfold checksum_ok.
      change (?a :: ?b :: ?c :: ?d :: ?e :: ?f :: ?g :: ?h :: ?i :: ?j
                :: response ++ ?t)
        with ([a; b; c; d; e; f; g; h; i; j] ++ response ++ t).
      rewrite app_assoc.
      replace (10 + n)%nat
        with (length ([3; 0; 1; functionCode; subFunctionCode; messageID;
                       0; 0; Z.of_nat n; 0] ++ response))
        by (rewrite length_app; simpl; fold n; lia).
      rewrite take_app_length, list_lookup_middle by done.
      rewrite sumZ_app. simpl. f_equal. unfold ck. f_equal. lia.
    + unfold Buffer.readUInt16LE. simpl. f_equal. lia.
  - reflexivity.
  - unfold n. cbn [drop]. by rewrite drop_0, take_app_length.
Qed.

End mock_lemmas.

(** X18. The client decodes what the mock camera of the tests answers: the
    bytes written by [respond] for a byte-sized function, subfunction and
    message number and a payload of fewer than 256 bytes, delivered in the
    chunks [respond] writes or cut in any other way, make a fresh camera
    emit exactly one event, with that message number and that payload
    ([undefined] for an empty one), and leave its buffer empty. *)
Theorem receive_decodes_mock_response
  (functionCode subFunctionCode messageID : Z) (response : list Z)
  (chunks : list (list Z)) :
  is_byte functionCode → is_byte subFunctionCode → is_byte messageID →
  bytes response → (length response < 256)%nat →
  concat chunks
    = concat (respond functionCode subFunctionCode messageID response) →
  events (receive_all new_Camera chunks).2
    = [Emit (Some messageID)
            (if decide (response = []) then None else Some response)]
  ∧ receiveBuffer (receive_all new_Camera chunks).1 = [].
Proof.
  intros Hf Hs Hm Hr Hlen Hcat.
  destruct (respond_framed functionCode subFunctionCode messageID response
              Hf Hs Hm Hr Hlen) as (Hframed & H5 & Hpay).
  set (packet := concat (respond functionCode subFunctionCode messageID response))
    in *.
  assert (Hpos : (length (receiveBuffer new_Camera) < length packet)%nat).
  { destruct Hframed as [(_ & Hplen & _) _]. simpl. lia. }
  destruct (receive_all_fragments packet (length response) chunks new_Camera
              Hframed Hcat Hpos) as (Hcam & Hev & _).
  rewrite Hev, Hcam. split; [| done].
  unfold decoded. rewrite H5, Hpay. do 2 f_equal.
  destruct response; [done |]. rewrite decide_False by (simpl; lia).
  by rewrite decide_False.
Qed.

Lemma receive_decodes_mock_response_witness :
  let chunks := respond 7 6 3 [4; 0] in
  events (receive_all new_Camera chunks).2 = [Emit (Some 3) (Some [4; 0])]
  ∧ receiveBuffer (receive_all new_Camera chunks).1 = [].
Proof.
  intros chunks.
  apply (receive_decodes_mock_response 7 6 3 [4; 0] chunks);
    try (unfold is_byte; lia).
  - repeat constructor; done.
  - simpl. lia.
  - reflexivity.
Defined.

(** X19. The commands without a mode send one request without data words,
    which [send] always accepts. For brightness and contrast only the sign
    of [delta] matters, and a [delta] of 0 acts as a decrease. *)
Theorem plain_commands_send_one_request (delta : Z) (enabled : bool) :
  Forall (λ p : proc (option (list Z)),
            ∃ command subCommand,
              p = Await command [subCommand] Return
              ∧ is_byte command ∧ is_byte subCommand
              ∧ sendable command [subCommand])
         [invertImage; toggleFreezeFrame; setBrightness delta;
          setContrast delta; setCooler enabled; toggleColorBar enabled;
          toggleOSD enabled]
  ∧ (delta > 0 → setBrightness delta = setBrightness 1
                 ∧ setContrast delta = setContrast 1)
  ∧ (delta ≤ 0 → setBrightness delta = setBrightness (-1)
                 ∧ setContrast delta = setContrast (-1))
  ∧ setBrightness 1 ≠ setBrightness (-1)
  ∧ setContrast 1 ≠ setContrast (-1).
Proof.
  assert (Hplain : ∀ command subCommand,
            is_byte command → is_byte subCommand →
            ∃ c s, @Await (option (list Z)) command [subCommand] Return
                   = Await c [s] Return
                   ∧ is_byte c ∧ is_byte s ∧ sendable c [s]).
  { intros command subCommand Hc Hs. exists command, subCommand.
    split_and!; try done. apply sendable_words; [constructor | simpl; lia]. }
  split_and!.
  - unfold invertImage, toggleFreezeFrame, setBrightness, setContrast,
      setCooler, toggleColorBar, toggleOSD, send_fn.
    repeat apply Forall_cons_2; try apply Forall_nil_2;
      try destruct (decide (delta > 0)); try destruct enabled;
      apply Hplain; unfold is_byte; simpl; lia.
  - intros Hpos. unfold setBrightness, setContrast.
    by rewrite !(decide_True (P := delta > 0)) by done.
  - intros Hneg. unfold setBrightness, setContrast.
    by rewrite !(decide_False (P := delta > 0)) by lia.
  - discriminate.
  - discriminate.
Qed.

Lemma plain_commands_send_one_request_witness :
  setBrightness 0 = setBrightness (-1) ∧ setContrast 7 = setContrast 1.
Proof.
  destruct (plain_commands_send_one_request 0 true) as (_ & _ & Hdown & _).
  destruct (plain_commands_send_one_request 7 true) as (_ & Hup & _).
  split; [apply Hdown; lia | apply Hup; lia].
Defined.

(** ** Sample evaluations *)

Example STD_HEADER_bytes : STD_HEADER = [3; 0; 1; 0; 0; 0; 255; 255].
Proof. reflexivity. Qed.

Example STD_FOOTER_bytes : STD_FOOTER = [0; 2; 0; 0].
Proof. reflexivity. Qed.

(** [setNUC('hot')] as the first request: function 7/5 with the word 4. *)
Example createPacket_NUC_SET_hot :
  createPacket 1 7 5 [4]
  = Ok [3; 0; 1; 7; 5; 1; 255; 255; 2; 0; 4; 0; 21; 2; 0; 0].
Proof. vm_compute. reflexivity. Qed.

Example parsePacket_NUC_SET_hot :
  parsePacket [3; 0; 1; 7; 5; 1; 255; 255; 2; 0; 4; 0; 21; 2; 0; 0] 2
  = Ok (MkParsed (Some 1) (Some [4; 0])).
Proof. vm_compute. reflexivity. Qed.

Example ITT_MAP_3 : ITT_MAP !! 3 = Some "s-curve"%string.
Proof. vm_compute. reflexivity. Qed.

Example setAGC_full_sends_twice :
  ∃ k, setAGC "full" = Await 1 [1] k ∧ k None = Await 1 [3; 0] Return.
Proof. eexists. split; reflexivity. Qed.
